(** * go-querymap: the merge engine, the bracket-key parser and the
      numeric-index normalizer of [pkg/querymap/querymap.go]

    The Go code works on [map[string]any] trees.  The embedding keeps that
    shape: a [QueryMap] is a [gmap string value], the dynamic type [any] is
    the inductive [value], and the functions keep the names they have in the
    source.  Go's [int] is modelled by [Z] (the lengths of real strings stay
    far away from the 64-bit limits, so no wrap-around is involved), strings
    are byte strings, and a run-time panic is an explicit outcome. *)

From Stdlib Require Import ZArith Ascii String.
From stdpp Require Import gmap strings list fin_maps sorting.

Set Warnings "-register-all".

Local Open Scope string_scope.
Local Open Scope list_scope.

(** * The program *)

(** ** Data model *)

(** Dynamic Go values that are none of the four tree shapes.  [any] is an
    open type; these constructors stand for everything the type switches of
    the source fall through on ([nil], an [int] as in the structure-decoder
    test, a [bool]). *)
Inductive foreign :=
| GoNil
| GoInt (n : Z)
| GoBool (b : bool).

(** [any], as the source uses it: ["any" can be one of: string, []string,
    QueryMap, anyList]. *)
Inductive value :=
| VString (s : string)
| VStrings (l : list string)
| VAnyList (l : list value)
| VMap (m : gmap string value)
| VForeign (f : foreign).

Abbreviation QueryMap := (gmap string value).

Definition newQueryMap : QueryMap := ∅.

(** Outcome of code that can panic.  [OutOfFuel] only exists because the
    recursion of [nestedQuery] is driven by a counter here; it is shown
    unreachable below. *)
Inductive outcome (A : Type) :=
| Ok (a : A)
| Panicked
| OutOfFuel.
Arguments Ok {A} a.
Arguments Panicked {A}.
Arguments OutOfFuel {A}.

Global Instance outcome_ret : MRet outcome := λ A a, Ok a.
Global Instance outcome_bind : MBind outcome := λ A B k o,
  match o with
  | Ok a => k a
  | Panicked => Panicked
  | OutOfFuel => OutOfFuel
  end.

(** ** The merge engine: [QueryMap.set] *)

(** [set] mutates the receiver; the embedding returns the new map.  The
    Object+Object case runs [entry.set] for every pair of the incoming map
    and, [entry] being a reference, the parent sees the merged map without an
    assignment.  A type switch without [default] leaves [q] as it is.

    A slice and a map are modelled by what they hold.  Go's
    [append(entry, ...)] (lines 43, 45, 62, 65, 69 and 71) writes into the
    spare capacity of the backing array of [entry] when there is some, and a
    caller who holds a second slice on that array sees the write.  The
    embedding describes the calls in which no other live slice or map shares
    storage with what [q] holds.  [FromURL] is such a caller: [URL.Query()]
    builds a slice of its own for every key, each is stored at one place of
    the tree, and every merge overwrites the only reference to the slice it
    appended to.  A [url.Values] made by hand may hold two slices on one
    array, so the results below that compare the contents of the tree with
    the raw values are stated for [FromURL]. *)
Fixpoint set (q : QueryMap) (key : string) (untypedValue : value) : QueryMap :=
  match q !! key with
  | None => <[key := untypedValue]> q
  | Some untypedEntry =>
    match untypedEntry with
    | VString entry =>
      match untypedValue with
      | VString value => <[key := VStrings [entry; value]]> q
      | VStrings value => <[key := VStrings ([entry] ++ value)]> q
      | VAnyList value => <[key := VAnyList ([VString entry] ++ value)]> q
      | VMap value => <[key := VAnyList [VString entry; VMap value]]> q
      | VForeign _ => q
      end
    | VStrings entry =>
      match untypedValue with
      | VString value => <[key := VStrings (entry ++ [value])]> q
      | VStrings value => <[key := VStrings (entry ++ value)]> q
      | VAnyList value =>
        let slc := foldl (λ slc s, slc ++ [VString s]) [] entry in
        <[key := VAnyList (slc ++ value)]> q
      | VMap value =>
        let slc := foldl (λ slc s, slc ++ [VString s]) [] entry in
        <[key := VAnyList (slc ++ [VMap value])]> q
      | VForeign _ => q
      end
    | VAnyList entry =>
      match untypedValue with
      | VString value => <[key := VAnyList (entry ++ [VString value])]> q
      | VStrings value =>
        <[key := VAnyList (foldl (λ entry s, entry ++ [VString s]) entry value)]> q
      | VAnyList value => <[key := VAnyList (entry ++ value)]> q
      | VMap value => <[key := VAnyList (entry ++ [VMap value])]> q
      | VForeign _ => q
      end
    | VMap entry =>
      match untypedValue with
      | VString value => <[key := VAnyList ([VMap entry] ++ [VString value])]> q
      | VStrings value =>
        <[key := VAnyList (foldl (λ slc s, slc ++ [VString s]) [VMap entry] value)]> q
      | VAnyList value => <[key := VAnyList ([VMap entry] ++ value)]> q
      | VMap value =>
        <[key := VMap (map_fold (λ typedValueKey typedValueValue entry,
                                   set entry typedValueKey typedValueValue)
                                entry value)]> q
      | VForeign _ => q
      end
    | VForeign _ => q
    end
  end.

(** ** Strings and slices, as Go has them *)

Definition len (s : string) : Z := Z.of_nat (String.length s).

(** [strings.IndexRune(s, c)] for an ASCII rune [c]: the index of the first
    byte [c] of [s], or [-1]. *)
Fixpoint IndexRune (s : string) (c : ascii) : Z :=
  match s with
  | EmptyString => (-1)%Z
  | String a s' =>
    if Ascii.eqb a c then 0%Z
    else let r := IndexRune s' c in if (r =? -1)%Z then (-1)%Z else (r + 1)%Z
  end.

Fixpoint str_take (n : nat) (s : string) : string :=
  match n, s with
  | S n', String a s' => String a (str_take n' s')
  | _, _ => EmptyString
  end.

Fixpoint str_drop (n : nat) (s : string) : string :=
  match n, s with
  | S n', String _ s' => str_drop n' s'
  | _, _ => s
  end.

(** [s[:hi]] and [s[lo:]]: a bound outside [0..len(s)] is a run-time panic
    ("slice bounds out of range"). *)
Definition slice_to (s : string) (hi : Z) : outcome string :=
  if ((0 <=? hi) && (hi <=? len s))%Z then Ok (str_take (Z.to_nat hi) s)
  else Panicked.

Definition slice_from (s : string) (lo : Z) : outcome string :=
  if ((0 <=? lo) && (lo <=? len s))%Z then Ok (str_drop (Z.to_nat lo) s)
  else Panicked.

(** ** The key-path parser: [nestedQuery] *)

(** One activation of [nestedQuery]; [self] is the recursive call, which the
    source makes on [nextKey], a suffix of [key]. *)
Definition nestedQuery_body
    (self : QueryMap → string → list string → outcome QueryMap)
    (data : QueryMap) (key : string) (value : list string) : outcome QueryMap :=
  let nextStart := IndexRune key "[" in
  let nextEnd := IndexRune key "]" in
  currentKey ←
    (if (nextStart =? -1)%Z && negb (nextEnd =? -1)%Z && (len key =? nextEnd + 1)%Z
     then slice_to key nextEnd
     else if negb (nextStart =? -1)%Z && negb (nextEnd =? -1)%Z
             && (nextStart + 1 =? nextEnd)%Z
     then slice_to key nextStart
     else if (nextEnd + 1 =? nextStart)%Z
     then slice_to key nextEnd
     else if negb (nextStart =? -1)%Z && (nextStart <? nextEnd)%Z
     then slice_to key nextStart
     else Ok key);
  appendMarker ←
    (if (nextStart + 1 =? nextEnd)%Z && (nextEnd + 1 =? len key)%Z then Ok true
     else if negb (nextEnd =? -1)%Z && (nextStart >? nextEnd)%Z
     then rest ← slice_from key nextStart;
          Ok (String.eqb rest "[]" && (nextStart + 2 =? len key)%Z)
     else Ok false);
  if appendMarker : bool then Ok (set data currentKey (VStrings value))
  else if negb (nextStart =? -1)%Z then
    nextKey ←
      (if negb (nextEnd =? -1)%Z && (nextEnd <? nextStart)%Z
       then slice_from key (nextEnd + 2)
       else slice_from key (nextStart + 1));
    inner ← self newQueryMap nextKey value;
    Ok (set data currentKey (VMap inner))
  else
    match value with
    | [v] => Ok (set data currentKey (VString v))
    | _ => Ok (set data currentKey (VStrings value))
    end.

(** The counter [fuel] stands for the descent along the key; [nestedQuery]
    starts it above the length of the key. *)
Fixpoint nestedQuery_fuel (fuel : nat) (data : QueryMap) (key : string)
    (value : list string) : outcome QueryMap :=
  match fuel with
  | O => OutOfFuel
  | S fuel' => nestedQuery_body (nestedQuery_fuel fuel') data key value
  end.

Definition nestedQuery (data : QueryMap) (key : string) (value : list string)
    : outcome QueryMap :=
  nestedQuery_fuel (S (String.length key)) data key value.

(** ** The numeric-index normalizer *)

(** Go's [strconv.Atoi] (standard library, 64-bit [int]): an optional sign,
    then one or more decimal digits, and a value that fits [int]; anything
    else is an error.  This is what the source means by a numeric key. *)
Fixpoint parse_digits (acc : Z) (s : string) : option Z :=
  match s with
  | EmptyString => Some acc
  | String c s' =>
    match Ascii.is_nat c with
    | Some d => parse_digits (acc * 10 + Z.of_nat d)%Z s'
    | None => None
    end
  end.

Definition Atoi (s : string) : option Z :=
  let '(neg, digits) :=
    match s with
    | String "-" s' => (true, s')
    | String "+" s' => (false, s')
    | _ => (false, s)
    end in
  match digits with
  | EmptyString => None
  | _ =>
    match parse_digits 0 digits with
    | Some n =>
      let n := if neg : bool then (- n)%Z else n in
      if ((- 2 ^ 63 <=? n) && (n <? 2 ^ 63))%Z then Some n else None
    | None => None
    end
  end.

(** [maps.Keys]: the keys in the map's iteration order, which Go leaves
    unspecified; one order is fixed here and the results below do not depend
    on it. *)
Definition maps_Keys {A} (m : gmap string A) : list string := (map_to_list m).*1.

(** [slices.Sort] on [[]string]: ascending, strings compared byte by byte.
    It is only run on the keys of a map, which are pairwise different, so the
    sorted list is determined by the set of keys. *)
Definition slices_Sort (l : list string) : list string := merge_sort String.le l.

(** [m[k]] on a [map[string]any]: a missing key reads as [nil]. *)
Definition index_any (m : QueryMap) (k : string) : value :=
  default (VForeign GoNil) (m !! k).

(** The QueryMap case mutates the map it is given ([value[k] = ...]) and
    returns it; the embedding returns the new map. *)
Fixpoint NormalizeSlicesNumbersIndexes (v : value) : value :=
  match v with
  | VString value => VString value
  | VStrings value => VStrings value
  | VMap value =>
    let '(total, keyAreNumbers) :=
      map_fold (λ key _ '(total, keyAreNumbers),
                  ((total + 1)%Z,
                   if Atoi key is Some _ then (keyAreNumbers + 1)%Z
                   else keyAreNumbers))
               (0%Z, 0%Z) value in
    if (total =? keyAreNumbers)%Z then
      let valueKeys := slices_Sort (maps_Keys value) in
      VAnyList (foldl (λ slc valueKey, slc ++ [index_any value valueKey])
                      [] valueKeys)
    else VMap (NormalizeSlicesNumbersIndexes <$> value)
  | VAnyList value => VAnyList (NormalizeSlicesNumbersIndexes <$> value)
  | VForeign _ => v
  end.

(** ** The pipeline: [FromValues] (and [FromURL], which hands it
       [URL.Query()]) *)

(** [url.Values] is a [map[string][]string]; a missing key reads as the nil
    slice. *)
Definition index_values (urlQuery : gmap string (list string)) (key : string)
    : list string :=
  default [] (urlQuery !! key).

(** The first loop of [FromValues], over the sorted keys. *)
Fixpoint ingest (urlQuery : gmap string (list string)) (data : QueryMap)
    (keys : list string) : outcome QueryMap :=
  match keys with
  | [] => Ok data
  | key :: keys' =>
    data' ← nestedQuery data key (index_values urlQuery key);
    ingest urlQuery data' keys'
  end.

(** [FromValues], given what [maps.Keys(urlQuery)] returned. *)
Definition FromValues_ranging (urlQueryKeys : list string)
    (urlQuery : gmap string (list string)) : outcome QueryMap :=
  data ← ingest urlQuery newQueryMap (slices_Sort urlQueryKeys);
  Ok (NormalizeSlicesNumbersIndexes <$> (data : QueryMap)).

Definition FromValues (urlQuery : gmap string (list string)) : outcome QueryMap :=
  FromValues_ranging (maps_Keys urlQuery) urlQuery.

(** [URL.Query()] ([net/url], standard library) cuts the raw query at [&],
    unescapes the key and the value of every piece and runs
    [m[key] = append(m[key], value)]; a piece that does not decode is
    skipped.  The embedding starts from the decoded pairs, in the order of
    the query.  Every key gets a slice of its own. *)
Definition Query (pairs : list (string * string)) : gmap string (list string) :=
  foldl (λ m '(key, value), <[key := index_values m key ++ [value]]> m)
        ∅ pairs.

(** [FromURL], the URL given by the decoded pairs of its query. *)
Definition FromURL (pairs : list (string * string)) : outcome QueryMap :=
  FromValues (Query pairs).

(** ** The merge lattice, as the specification tabulates it *)

(** Rows are the existing shape, columns the incoming one.  Object+Object
    merges key by key: a key of both sides is merged by the same table, a key
    of one side is kept.  Outside the four shapes the table says nothing; the
    existing value is kept there. *)
Fixpoint merge_lattice (e i : value) : value :=
  match e, i with
  | VString e, VString i => VStrings [e; i]
  | VString e, VStrings i => VStrings (e :: i)
  | VString e, VAnyList i => VAnyList (VString e :: i)
  | VString e, VMap i => VAnyList [VString e; VMap i]
  | VStrings e, VString i => VStrings (e ++ [i])
  | VStrings e, VStrings i => VStrings (e ++ i)
  | VStrings e, VAnyList i => VAnyList ((VString <$> e) ++ i)
  | VStrings e, VMap i => VAnyList ((VString <$> e) ++ [VMap i])
  | VAnyList e, VString i => VAnyList (e ++ [VString i])
  | VAnyList e, VStrings i => VAnyList (e ++ (VString <$> i))
  | VAnyList e, VAnyList i => VAnyList (e ++ i)
  | VAnyList e, VMap i => VAnyList (e ++ [VMap i])
  | VMap e, VString i => VAnyList [VMap e; VString i]
  | VMap e, VStrings i => VAnyList (VMap e :: (VString <$> i))
  | VMap e, VAnyList i => VAnyList (VMap e :: i)
  | VMap e, VMap i => VMap (union_with (λ a b, Some (merge_lattice a b)) e i)
  | _, _ => e
  end.

(** ** Induction on value trees *)

Fixpoint value_size (v : value) : nat :=
  match v with
  | VAnyList l => S (foldr (λ x n, value_size x + n)%nat O l)
  | VMap m => S (map_fold (λ _ x n, value_size x + n)%nat O m)
  | _ => 1%nat
  end.

(** ** Notions used to state the results *)

Definition set_spec (q : QueryMap) (key : string) (v : value) : QueryMap :=
  match q !! key with
  | None => <[key := v]> q
  | Some e => <[key := merge_lattice e v]> q
  end.

Definition no_bracket (name : string) : Prop :=
  IndexRune name "[" = (-1)%Z ∧ IndexRune name "]" = (-1)%Z.

(** The leaf of lines 129-132: one raw value is stored as a string, any
    other number of them as the []string itself. *)
Definition leaf_value (vs : list string) : value :=
  match vs with
  | [v] => VString v
  | _ => VStrings vs
  end.

(** The name a key without ["["] is stored under: a closing bracket that ends
    the key (and is its first one) is cut off. *)
Definition leaf_name (key : string) : string :=
  let nextEnd := IndexRune key "]" in
  if (negb (nextEnd =? -1) && (len key =? nextEnd + 1))%Z
  then str_take (Z.to_nat nextEnd) key
  else key.

(** [path] as nested single-key Objects around [leaf]. *)
Fixpoint nest_under (path : list string) (leaf : value) : value :=
  match path with
  | [] => leaf
  | k :: path' => VMap {[ k := nest_under path' leaf ]}
  end.

(** The keys of the grammar [name ( "[" inner "]" )*]. *)
Fixpoint bracket_groups (segs : list string) : string :=
  match segs with
  | [] => ""
  | seg :: segs' => "[" +:+ seg +:+ "]" +:+ bracket_groups segs'
  end.

Definition bracket_key (name : string) (segs : list string) : string :=
  name +:+ bracket_groups segs.

(** What the grammar key [name[s1]...[sn]] puts under [name]: the segments
    as nested single-key Objects (an empty segment being the key [""]) around
    the leaf — except that an empty last segment is the append marker and
    leaves the raw value list in its place. *)
Fixpoint build_under (segs : list string) (vs : list string) : value :=
  match segs with
  | [] => leaf_value vs
  | seg :: segs' =>
    match seg, segs' with
    | EmptyString, [] => VStrings vs
    | _, _ => VMap {[ seg := build_under segs' vs ]}
    end
  end.

(** A raw key of the grammar: a name and bracket groups, none of them with a
    bracket inside. *)
Definition grammar_key (key : string) : Prop :=
  ∃ name segs,
    key = bracket_key name segs ∧ no_bracket name ∧ Forall no_bracket segs.

(** The strings at the leaves of a tree.  The order inside an Object is the
    order of the map, so leaf lists are compared up to permutation. *)
Fixpoint leaves (v : value) : list string :=
  match v with
  | VString s => [s]
  | VStrings l => l
  | VAnyList l => foldr (λ x acc, leaves x ++ acc) [] l
  | VMap m => map_fold (λ _ x acc, leaves x ++ acc) [] m
  | VForeign _ => []
  end.

(** A tree built from the four shapes only, at every depth. *)
Fixpoint well_shaped (v : value) : bool :=
  match v with
  | VString _ | VStrings _ => true
  | VAnyList l => forallb well_shaped l
  | VMap m => map_fold (λ _ x b, well_shaped x && b) true m
  | VForeign _ => false
  end.

(** The test of the normalizer, as a boolean: every key passes [Atoi]. *)
Definition all_numeric (m : QueryMap) : bool :=
  map_fold (λ k _ b, (if Atoi k is Some _ then true else false) && b) true m.

(** No Object with only numeric keys (the empty one included) anywhere in
    the tree. *)
Fixpoint clean (v : value) : bool :=
  match v with
  | VAnyList l => forallb clean l
  | VMap m => negb (all_numeric m) && map_fold (λ _ x b, clean x && b) true m
  | _ => true
  end.

(** Every Object with only numeric keys that the normalizer meets holds
    values that are already [clean]. *)
Fixpoint settles (v : value) : bool :=
  match v with
  | VAnyList l => forallb settles l
  | VMap m =>
    if all_numeric m then map_fold (λ _ x b, clean x && b) true m
    else map_fold (λ _ x b, settles x && b) true m
  | _ => true
  end.

(** Leaves of lists and of maps. *)
Definition leaves_list (l : list value) : list string :=
  foldr (λ x acc, leaves x ++ acc) [] l.

(** Every opening bracket of the key has a closing bracket somewhere after
    it. *)
Fixpoint brackets_closed (s : string) : bool :=
  match s with
  | EmptyString => true
  | String a s' =>
    (if Ascii.eqb a "[" then negb (IndexRune s' "]" =? -1)%Z else true)
    && brackets_closed s'
  end.

(** Case analysis on the integer tests of the goal, dropping at once the
    branches the known bounds exclude. *)
Ltac zbool :=
  rewrite ?Z.gtb_ltb in *;
  repeat (match goal with
          | |- context [(?a =? ?b)%Z] => destruct (Z.eqb_spec a b)
          | |- context [(?a <? ?b)%Z] => destruct (Z.ltb_spec a b)
          | |- context [(?a <=? ?b)%Z] => destruct (Z.leb_spec a b)
          end; try lia; cbn [negb andb mbind outcome_bind]);
  try done.

(** Every key of the Object passes [strconv.Atoi]. *)
Definition numeric_keys (m : QueryMap) : Prop :=
  ∀ k, is_Some (m !! k) → is_Some (Atoi k).

(** Decimal digits only. *)
Fixpoint decimal_digits (s : string) : bool :=
  match s with
  | EmptyString => true
  | String c s' =>
    match Ascii.is_nat c with
    | Some _ => decimal_digits s'
    | None => false
    end
  end.

(** A valid base-10 integer literal, as the specification words the test on
    the keys: an optional sign, then one or more decimal digits, however
    many. *)
Definition integer_literal (s : string) : bool :=
  let digits :=
    match s with
    | String "-" s' => s'
    | String "+" s' => s'
    | _ => s
    end in
  match digits with
  | EmptyString => false
  | _ => decimal_digits digits
  end.

(** The number an integer literal stands for. *)
Definition literal_value (s : string) : Z :=
  match s with
  | String "-" s' => - default 0 (parse_digits 0 s')
  | String "+" s' => default 0 (parse_digits 0 s')
  | _ => default 0 (parse_digits 0 s)
  end%Z.

(** Every key of the Object is an integer literal. *)
Definition literal_keys (m : QueryMap) : Prop :=
  ∀ k, is_Some (m !! k) → integer_literal k = true.

(** Strings compared as text, byte by byte: Go's [<] on strings. *)
Definition str_lt (a b : string) : Prop := String.compare a b = Lt.

(** One of the four tree shapes. *)
Definition is_tree_shape (v : value) : bool :=
  match v with
  | VForeign _ => false
  | _ => true
  end.

(** * Lemmas *)

Lemma value_size_elem (l : list value) (x : value) :
  x ∈ l → (value_size x < value_size (VAnyList l))%nat.
Proof.
  simpl. induction 1 as [x l|x y l _ IH]; simpl in *; lia.
Qed.

Lemma value_size_lookup (m : QueryMap) (k : string) (x : value) :
  m !! k = Some x → (value_size x < value_size (VMap m))%nat.
Proof.
  intros Hk. simpl.
  rewrite <-(insert_delete_id m k x Hk).
  rewrite map_fold_insert_L.
  - lia.
  - intros. lia.
  - apply lookup_delete_eq.
Qed.

Lemma value_tree_ind (P : value → Prop) :
  (∀ s, P (VString s)) →
  (∀ l, P (VStrings l)) →
  (∀ l, Forall P l → P (VAnyList l)) →
  (∀ m, map_Forall (λ _, P) m → P (VMap m)) →
  (∀ f, P (VForeign f)) →
  ∀ v, P v.
Proof.
  intros Hs Hl Ha Hm Hf.
  assert (∀ n v, (value_size v < n)%nat → P v) as Hsize.
  { induction n as [|n IH]; intros v Hlt; [lia|].
    destruct v as [s|l|l|m|f]; auto.
    - apply Ha, Forall_forall. intros x Hx. apply IH.
      pose proof (value_size_elem _ _ Hx). lia.
    - apply Hm. intros k x Hk. apply IH.
      pose proof (value_size_lookup _ _ _ Hk). lia. }
  intros v. apply (Hsize (S (value_size v))). lia.
Qed.

(** ** The merge engine refines the lattice *)

Lemma foldl_append_strings (acc : list value) (l : list string) :
  foldl (λ slc s, slc ++ [VString s]) acc l = acc ++ (VString <$> l).
Proof.
  revert acc. induction l as [|s l IH]; intros acc; simpl.
  - by rewrite app_nil_r.
  - rewrite IH. by rewrite <-app_assoc.
Qed.

Lemma set_unfold_lookup (q : QueryMap) (key : string) (v : value) :
  set q key v =
  match q !! key with
  | None => <[key := v]> q
  | Some e =>
    match e, v with
    | VMap entry, VMap value =>
      <[key := VMap (map_fold (λ k x acc, set acc k x) entry value)]> q
    | VForeign _, _ | _, VForeign _ => q
    | _, _ => <[key := merge_lattice e v]> q
    end
  end.
Proof.
  destruct v as [s|l|l|m|f]; simpl; destruct (q !! key) as [[s'|l'|l'|m'|f']|];
    simpl; rewrite ?foldl_append_strings; try reflexivity.
Qed.

Lemma deep_merge_fold (entry value : QueryMap) :
  map_Forall (λ _ x, ∀ q key, set q key x = set_spec q key x) value →
  map_fold (λ k x acc, set acc k x) entry value
  = union_with (λ a b, Some (merge_lattice a b)) entry value.
Proof.
  apply (map_fold_weak_ind (λ r m,
    map_Forall (λ _ x, ∀ q key, set q key x = set_spec q key x) m →
    r = union_with (λ a b, Some (merge_lattice a b)) entry m)).
  - intros _. apply map_eq. intros j.
    rewrite lookup_union_with, lookup_empty. by destruct (entry !! j).
  - intros i x m r Hi IH Hall.
    apply map_Forall_insert in Hall as [Hx Hall]; [|done].
    rewrite Hx, (IH Hall). unfold set_spec.
    apply map_eq. intros j.
    rewrite !lookup_union_with, Hi.
    destruct (decide (i = j)) as [->|Hne].
    + rewrite lookup_insert_eq.
      destruct (entry !! j) as [e|] eqn:He; simpl;
        rewrite lookup_insert_eq; done.
    + rewrite lookup_insert_ne by done.
      destruct (entry !! i) as [e|] eqn:He; simpl;
        rewrite lookup_insert_ne by done;
        by rewrite lookup_union_with.
Qed.

Lemma set_is_set_spec (q : QueryMap) (key : string) (v : value) :
  set q key v = set_spec q key v.
Proof.
  revert q key.
  induction v as [s|l|l _|m IH|f] using value_tree_ind; intros q key;
    rewrite set_unfold_lookup; unfold set_spec;
    destruct (q !! key) as [[se|le|le|me|fe]|] eqn:Hq; simpl;
    try reflexivity;
    try (symmetry; by apply insert_id).
  rewrite (deep_merge_fold me m IH). reflexivity.
Qed.

Section any_order.
(** Go leaves the order of [range] over a map unspecified.  Whatever order
    the Object+Object loop of [set] visits the incoming pairs in, the merged
    map is the same. *)
Lemma deep_merge_pairs (pairs : list (string * value)) (entry : QueryMap) :
  NoDup pairs.*1 →
  foldl (λ entry kx, set entry kx.1 kx.2) entry pairs
  = union_with (λ a b, Some (merge_lattice a b)) entry (list_to_map pairs).
Proof.
  revert entry. induction pairs as [|[k x] pairs IH]; intros entry Hnd.
  - apply map_eq. intros j.
    cbn [foldl]. rewrite lookup_union_with, list_to_map_nil, lookup_empty.
    by destruct (entry !! j).
  - apply NoDup_cons in Hnd as [Hk Hnd]. cbn [foldl fst snd].
    rewrite (IH _ Hnd), set_is_set_spec, list_to_map_cons.
    unfold set_spec.
    apply not_elem_of_list_to_map_1 in Hk. cbn [fst] in Hk.
    apply map_eq. intros j. rewrite !lookup_union_with.
    destruct (decide (k = j)) as [->|Hne].
    + rewrite lookup_insert_eq, Hk.
      destruct (entry !! j) as [e|]; by rewrite lookup_insert_eq.
    + rewrite (lookup_insert_ne (list_to_map pairs)) by done.
      destruct (entry !! k) as [e|]; by rewrite lookup_insert_ne.
Qed.

Lemma deep_merge_any_order (pairs : list (string * value))
    (entry value : QueryMap) :
  pairs ≡ₚ map_to_list value →
  foldl (λ entry kx, set entry kx.1 kx.2) entry pairs
  = union_with (λ a b, Some (merge_lattice a b)) entry value.
Proof.
  intros Hperm. rewrite deep_merge_pairs.
  - f_equal. rewrite <-(list_to_map_to_list value).
    apply list_to_map_proper; [|done].
    rewrite Hperm. apply NoDup_fst_map_to_list.
  - rewrite Hperm. apply NoDup_fst_map_to_list.
Qed.
End any_order.

(** ** Facts about byte strings *)

Section strings.
Local Open Scope Z_scope.

Lemma len_nonneg (s : string) : 0 ≤ len s.
Proof. unfold len. lia. Qed.

Lemma str_app_nil_l (s : string) : "" +:+ s = s.
Proof. reflexivity. Qed.

Lemma str_app_cons (a : ascii) (s t : string) :
  String a s +:+ t = String a (s +:+ t).
Proof. reflexivity. Qed.

Lemma str_length_app (s1 s2 : string) :
  String.length (s1 +:+ s2) = (String.length s1 + String.length s2)%nat.
Proof.
  induction s1 as [|a s1 IH]; [done|].
  rewrite str_app_cons. simpl. by rewrite IH.
Qed.

Lemma len_app (s1 s2 : string) : len (s1 +:+ s2) = len s1 + len s2.
Proof. unfold len. rewrite str_length_app. lia. Qed.

Lemma IndexRune_bounds (s : string) (c : ascii) :
  -1 ≤ IndexRune s c < len s.
Proof.
  unfold len. induction s as [|a s IH]; simpl; [lia|].
  destruct (Ascii.eqb a c); [lia|].
  destruct (Z.eqb_spec (IndexRune s c) (-1)); lia.
Qed.

Lemma IndexRune_get (s : string) (c : ascii) :
  0 ≤ IndexRune s c → String.get (Z.to_nat (IndexRune s c)) s = Some c.
Proof.
  induction s as [|a s IH]; simpl; [lia|].
  destruct (Ascii.eqb_spec a c) as [->|Hne]; [done|].
  destruct (Z.eqb_spec (IndexRune s c) (-1)) as [E|E]; [lia|]. intros _.
  pose proof (IndexRune_bounds s c).
  replace (Z.to_nat (IndexRune s c + 1)) with (S (Z.to_nat (IndexRune s c)))
    by lia.
  simpl. apply IH. lia.
Qed.

Lemma IndexRune_first (s : string) (c : ascii) (j : nat) :
  String.get j s = Some c → 0 ≤ IndexRune s c ≤ Z.of_nat j.
Proof.
  revert j. induction s as [|a s IH]; intros j; simpl; [by destruct j|].
  destruct (Ascii.eqb_spec a c) as [->|Hne]; [lia|].
  destruct j as [|j]; [congruence|]. intros Hj.
  specialize (IH j Hj).
  destruct (Z.eqb_spec (IndexRune s c) (-1)); lia.
Qed.

Lemma IndexRune_absent_app (p s : string) (c : ascii) :
  IndexRune p c = -1 →
  IndexRune (p +:+ s) c
  = if IndexRune s c =? -1 then -1 else len p + IndexRune s c.
Proof.
  unfold len. induction p as [|a p IH]; simpl String.length.
  - intros _. rewrite str_app_nil_l.
    destruct (Z.eqb_spec (IndexRune s c) (-1)); lia.
  - rewrite str_app_cons. simpl.
    destruct (Ascii.eqb a c); [lia|].
    pose proof (IndexRune_bounds p c).
    destruct (Z.eqb_spec (IndexRune p c) (-1)) as [E|E]; [|lia]. intros _.
    rewrite (IH E).
    pose proof (IndexRune_bounds s c).
    destruct (Z.eqb_spec (IndexRune s c) (-1)) as [E'|E']; [done|].
    destruct (Z.eqb_spec (Z.of_nat (String.length p) + IndexRune s c) (-1));
      lia.
Qed.

Lemma str_drop_length (n : nat) (s : string) :
  String.length (str_drop n s) = (String.length s - n)%nat.
Proof.
  revert s. induction n as [|n IH]; intros [|a s]; simpl; auto with lia.
Qed.

Lemma str_drop_app (n : nat) (p q : string) :
  (n ≤ String.length p)%nat → str_drop n (p +:+ q) = str_drop n p +:+ q.
Proof.
  revert n. induction p as [|a p IH]; intros [|n] Hn;
    rewrite ?str_app_nil_l, ?str_app_cons; simpl in *; try done; try lia.
  apply IH. lia.
Qed.

Lemma str_drop_app_exact (p q : string) :
  str_drop (String.length p) (p +:+ q) = q.
Proof.
  induction p as [|a p IH]; [by destruct q|].
  rewrite str_app_cons. simpl. done.
Qed.

Lemma str_take_app_exact (p q : string) :
  str_take (String.length p) (p +:+ q) = p.
Proof.
  induction p as [|a p IH]; [by destruct q|].
  rewrite str_app_cons. simpl. by rewrite IH.
Qed.

Lemma str_take_all (s : string) : str_take (String.length s) s = s.
Proof. induction s as [|a s IH]; simpl; [done|by rewrite IH]. Qed.

Lemma slice_to_ok (s : string) (hi : Z) :
  0 ≤ hi ≤ len s → slice_to s hi = Ok (str_take (Z.to_nat hi) s).
Proof.
  intros [H1 H2]. unfold slice_to.
  apply Z.leb_le in H1, H2. by rewrite H1, H2.
Qed.

Lemma slice_from_ok (s : string) (lo : Z) :
  0 ≤ lo ≤ len s → slice_from s lo = Ok (str_drop (Z.to_nat lo) s).
Proof.
  intros [H1 H2]. unfold slice_from.
  apply Z.leb_le in H1, H2. by rewrite H1, H2.
Qed.

Lemma slice_to_app_exact (p q : string) : slice_to (p +:+ q) (len p) = Ok p.
Proof.
  rewrite slice_to_ok
    by (rewrite len_app; pose proof (len_nonneg p); pose proof (len_nonneg q);
        lia).
  unfold len. by rewrite Nat2Z.id, str_take_app_exact.
Qed.

Lemma slice_from_app_exact (p q : string) :
  slice_from (p +:+ q) (len p) = Ok q.
Proof.
  rewrite slice_from_ok
    by (rewrite len_app; pose proof (len_nonneg p); pose proof (len_nonneg q);
        lia).
  unfold len. by rewrite Nat2Z.id, str_drop_app_exact.
Qed.

Lemma get_app_r (p q : string) (n : nat) :
  String.get (String.length p + n) (p +:+ q) = String.get n q.
Proof. rewrite Nat.add_comm. symmetry. apply append_correct2. Qed.
End strings.

(** ** The descent of [nestedQuery] *)

Section descent.
Local Open Scope Z_scope.

Lemma slice_from_shorter (key nextKey : string) (lo : Z) :
  slice_from key lo = Ok nextKey → 1 ≤ lo →
  (String.length nextKey < String.length key)%nat.
Proof.
  unfold slice_from, len.
  destruct (Z.leb_spec 0 lo); [|done].
  destruct (Z.leb_spec lo (Z.of_nat (String.length key))); [|done].
  simpl. intros [= <-] ?. rewrite str_drop_length. lia.
Qed.

(** The recursive call is only ever made on a strictly shorter key. *)
Lemma nestedQuery_body_ext
    (self1 self2 : QueryMap → string → list string → outcome QueryMap)
    (data : QueryMap) (key : string) (value : list string) :
  (∀ d k v, (String.length k < String.length key)%nat →
            self1 d k v = self2 d k v) →
  nestedQuery_body self1 data key value
  = nestedQuery_body self2 data key value.
Proof.
  intros Hself. unfold nestedQuery_body.
  pose proof (IndexRune_bounds key "[") as Hs.
  pose proof (IndexRune_bounds key "]") as He.
  set (s := IndexRune key "[") in *. set (e := IndexRune key "]") in *.
  match goal with |- mbind _ ?o = _ => destruct o as [ck| |] end;
    simpl; try done.
  match goal with |- mbind _ ?o = _ => destruct o as [[|]| |] end;
    simpl; try done.
  destruct (Z.eqb_spec s (-1)) as [Hs1|Hs1]; simpl; [done|].
  match goal with |- mbind _ ?o = _ => destruct o as [nk| |] eqn:Hnk end;
    simpl; try done.
  rewrite Hself; [done|].
  destruct (negb (e =? -1) && (e <? s)) eqn:Hb.
  - apply andb_prop in Hb as [Hb _]. apply negb_true_iff, Z.eqb_neq in Hb.
    eapply slice_from_shorter; [done|lia].
  - eapply slice_from_shorter; [done|lia].
Qed.

Lemma nestedQuery_fuel_stable (f1 f2 : nat) (data : QueryMap) (key : string)
    (value : list string) :
  (String.length key < f1)%nat → (String.length key < f2)%nat →
  nestedQuery_fuel f1 data key value = nestedQuery_fuel f2 data key value.
Proof.
  revert f2 data key value.
  induction f1 as [|f1 IH]; intros [|f2] data key value; try lia.
  intros H1 H2. simpl. apply nestedQuery_body_ext.
  intros d k v Hk. apply IH; lia.
Qed.

(** [nestedQuery] satisfies the recursive equation of the source. *)
Lemma nestedQuery_unfold (data : QueryMap) (key : string) (value : list string) :
  nestedQuery data key value = nestedQuery_body nestedQuery data key value.
Proof.
  unfold nestedQuery at 1. simpl. apply nestedQuery_body_ext.
  intros d k v Hk. unfold nestedQuery. apply nestedQuery_fuel_stable; lia.
Qed.

(** The descent ends: every call returns or panics, the counter never runs
    out, because each recursive call gets a strictly shorter key. *)
Lemma nestedQuery_terminates (data : QueryMap) (key : string)
    (value : list string) :
  nestedQuery data key value ≠ OutOfFuel.
Proof.
  remember (String.length key) as n eqn:Hn.
  revert data key Hn.
  induction (lt_wf n) as [n _ IH]. intros data key ->.
  rewrite nestedQuery_unfold. unfold nestedQuery_body.
  pose proof (IndexRune_bounds key "[") as Hs.
  pose proof (IndexRune_bounds key "]") as He.
  set (s := IndexRune key "[") in *. set (e := IndexRune key "]") in *.
  match goal with |- mbind _ ?o ≠ _ => assert (o ≠ OutOfFuel) as Hck end.
  { unfold slice_to. repeat case_match; done. }
  match goal with |- mbind _ ?o ≠ _ => destruct o as [ck| |] end;
    simpl; try done.
  match goal with |- mbind _ ?o ≠ _ => assert (o ≠ OutOfFuel) as Ham end.
  { unfold slice_from. repeat case_match; done. }
  match goal with |- mbind _ ?o ≠ _ => destruct o as [[|]| |] end;
    simpl; try done.
  destruct (Z.eqb_spec s (-1)) as [Hs1|Hs1]; simpl.
  { repeat case_match; done. }
  match goal with |- mbind _ ?o ≠ _ => assert (o ≠ OutOfFuel) as Hnk' end.
  { unfold slice_from. repeat case_match; done. }
  match goal with |- mbind _ ?o ≠ _ => destruct o as [nk| |] eqn:Hnk end;
    simpl; try done.
  assert (String.length nk < String.length key)%nat as Hlt.
  { destruct (negb (e =? -1) && (e <? s)) eqn:Hb.
    - apply andb_prop in Hb as [Hb _]. apply negb_true_iff, Z.eqb_neq in Hb.
      eapply slice_from_shorter; [done|lia].
    - eapply slice_from_shorter; [done|lia]. }
  pose proof (IH _ Hlt newQueryMap nk eq_refl) as Hinner.
  destruct (nestedQuery newQueryMap nk value); simpl; done.
Qed.
End descent.

(** ** What one activation of the parser does *)

Section activation.
Local Open Scope Z_scope.

Lemma set_empty (key : string) (v : value) :
  set newQueryMap key v = {[ key := v ]}.
Proof.
  rewrite set_unfold_lookup. unfold newQueryMap.
  rewrite lookup_empty. apply insert_empty.
Qed.

Lemma IndexRune_head (key : string) (c : ascii) :
  IndexRune key c = 0 → ∃ rest, key = String c rest.
Proof.
  destruct key as [|a key]; simpl; [lia|].
  destruct (Ascii.eqb_spec a c) as [->|]; [eauto|].
  pose proof (IndexRune_bounds key c). zbool.
Qed.

Lemma nestedQuery_leaf (data : QueryMap) (key : string) (value : list string) :
  IndexRune key "[" = -1 → key ≠ "]" →
  nestedQuery data key value
  = Ok (set data (leaf_name key) (leaf_value value)).
Proof.
  intros Hs Hkey. rewrite nestedQuery_unfold.
  unfold nestedQuery_body, leaf_name, leaf_value. rewrite Hs.
  pose proof (IndexRune_bounds key "]") as He.
  pose proof (len_nonneg key) as Hl.
  assert (IndexRune key "]" = 0 → len key = 1 → False) as Hone.
  { intros H0 H1. apply IndexRune_head in H0 as [rest ->].
    destruct rest; [done|]. unfold len in H1. simpl in H1. lia. }
  unfold slice_to, slice_from.
  set (e := IndexRune key "]") in *. clearbody e.
  set (L := len key) in *. clearbody L.
  zbool; destruct value as [|v [|w value]]; done.
Qed.

Lemma nestedQuery_plain (data : QueryMap) (key : string) (value : list string) :
  no_bracket key →
  nestedQuery data key value = Ok (set data key (leaf_value value)).
Proof.
  intros [Hs He]. rewrite nestedQuery_leaf; [|done|].
  - unfold leaf_name. rewrite He. done.
  - intros ->. done.
Qed.

(** The panic: a key that opens with ["["] and has no ["]"] takes the
    [name][] branch (-1+1 == 0) and slices [key[:-1]]. *)
Lemma nestedQuery_panics (data : QueryMap) (key : string) (value : list string) :
  IndexRune key "[" = 0 → IndexRune key "]" = -1 →
  nestedQuery data key value = Panicked.
Proof.
  intros Hs He. rewrite nestedQuery_unfold.
  unfold nestedQuery_body. rewrite Hs, He. done.
Qed.

(** An opening bracket further in, and no closing bracket at all: the whole
    key is the name, and the text after the bracket is parsed below it. *)
Lemma nestedQuery_unclosed (data : QueryMap) (key : string) (value : list string) :
  1 ≤ IndexRune key "[" → IndexRune key "]" = -1 →
  nestedQuery data key value
  = inner ← nestedQuery newQueryMap
              (str_drop (Z.to_nat (IndexRune key "[" + 1)) key) value;
    Ok (set data key (VMap inner)).
Proof.
  intros Hs He. rewrite nestedQuery_unfold.
  unfold nestedQuery_body at 1. rewrite He.
  pose proof (IndexRune_bounds key "[") as Hb.
  unfold slice_from, slice_to.
  set (s := IndexRune key "[") in *. clearbody s.
  set (L := len key) in *. clearbody L.
  zbool.
Qed.
End activation.

(** ** Empty bracket groups *)

Section markers.
Local Open Scope Z_scope.

Lemma nestedQuery_append_name (data : QueryMap) (name : string)
    (value : list string) :
  no_bracket name →
  nestedQuery data (name +:+ "[]") value = Ok (set data name (VStrings value)).
Proof.
  intros [Hs He]. rewrite nestedQuery_unfold. unfold nestedQuery_body.
  rewrite (IndexRune_absent_app name "[]" "[" Hs).
  rewrite (IndexRune_absent_app name "[]" "]" He).
  change (IndexRune "[]" "[") with 0. change (IndexRune "[]" "]") with 1.
  cbn [Z.eqb]. rewrite Z.add_0_r, slice_to_app_exact, slice_from_app_exact.
  rewrite len_app. change (len "[]") with 2.
  pose proof (len_nonneg name) as Hl.
  set (L := len name) in *. clearbody L.
  zbool.
Qed.

Lemma nestedQuery_append_any (p : string) (data : QueryMap)
    (value : list string) :
  ∃ seg path,
    nestedQuery data (p +:+ "[]") value
    = Ok (set data seg (nest_under path (VStrings value))).
Proof.
  remember (String.length p) as n eqn:Hn. revert p data Hn.
  induction (lt_wf n) as [n _ IH]. intros p data ->.
  rewrite nestedQuery_unfold. unfold nestedQuery_body.
  pose proof (IndexRune_first (p +:+ "[]") "[" (String.length p + 0)
                (get_app_r p "[]" 0)) as Hs.
  pose proof (IndexRune_first (p +:+ "[]") "]" (String.length p + 1)
                (get_app_r p "[]" 1)) as He.
  assert (IndexRune (p +:+ "[]") "]" ≠ len p) as Hne.
  { intros Heq.
    pose proof (IndexRune_get (p +:+ "[]") "]" (proj1 He)) as Hg.
    rewrite Heq in Hg. unfold len in Hg. rewrite Nat2Z.id in Hg.
    rewrite <-(Nat.add_0_r (String.length p)), get_app_r in Hg. done. }
  assert (len (p +:+ "[]") = len p + 2) as HL by apply len_app.
  assert (∀ lo, 1 ≤ lo ≤ len p →
    ∃ seg path, nestedQuery newQueryMap
      (str_drop (Z.to_nat lo) (p +:+ "[]")) value
      = Ok {[ seg := nest_under path (VStrings value) ]}) as Hrec.
  { intros lo Hlo. rewrite str_drop_app by (unfold len in Hlo; lia).
    edestruct (IH (String.length (str_drop (Z.to_nat lo) p)))
      as (seg & path & Heq); [|done|].
    - rewrite str_drop_length. unfold len in Hlo. lia.
    - rewrite set_empty in Heq. eauto. }
  replace (Z.of_nat (String.length p + 0)) with (len p) in Hs
    by (unfold len; lia).
  replace (Z.of_nat (String.length p + 1)) with (len p + 1) in He
    by (unfold len; lia).
  set (s := IndexRune (p +:+ "[]") "[") in *.
  set (e := IndexRune (p +:+ "[]") "]") in *.
  clearbody s e.
  destruct (decide (s = len p)) as [->|Hsp].
  - (* the first "[" is the one of the final "[]" *)
    rewrite slice_to_app_exact, slice_from_app_exact.
    unfold slice_to, slice_from. rewrite HL.
    change ("[]" =? "[]")%string with true.
    zbool; by eexists _, [].
  - (* an earlier "[": descend into a suffix that still ends in "[]" *)
    destruct (Hrec (s + 1)) as (seg1 & path1 & Hin1); [lia|].
    assert (e < s → ∃ seg path, nestedQuery newQueryMap
      (str_drop (Z.to_nat (e + 2)) (p +:+ "[]")) value
      = Ok {[ seg := nest_under path (VStrings value) ]}) as Hin2.
    { intros Hlt. apply Hrec. lia. }
    unfold slice_to, slice_from. rewrite HL.
    zbool; rewrite ?andb_false_r; cbn [mbind outcome_bind];
      try (rewrite Hin1; by eexists _, (seg1 :: path1));
      (destruct Hin2 as (seg2 & path2 & ->); [lia|];
       by eexists _, (seg2 :: path2)).
Qed.

Lemma str_drop_app_r (p q : string) (n : nat) :
  str_drop (String.length p + n) (p +:+ q) = str_drop n q.
Proof.
  induction p as [|a p IH]; [done|]. rewrite str_app_cons. simpl. apply IH.
Qed.

(** A key that starts with ["]["]: the name is empty and what follows the
    opening bracket is parsed below it. *)
Lemma nestedQuery_close_open (data : QueryMap) (r : string)
    (value : list string) :
  r ≠ "]" →
  nestedQuery data ("][" +:+ r) value
  = inner ← nestedQuery newQueryMap r value;
    Ok (set data "" (VMap inner)).
Proof.
  intros Hr. rewrite nestedQuery_unfold. unfold nestedQuery_body at 1.
  change ("][" +:+ r) with (String "]" (String "[" r)).
  change (IndexRune (String "]" (String "[" r)) "[") with 1.
  change (IndexRune (String "]" (String "[" r)) "]") with 0.
  assert (len (String "]" (String "[" r)) = len r + 2) as ->
    by (unfold len; simpl String.length; lia).
  unfold slice_to, slice_from.
  assert (len (String "]" (String "[" r)) = len r + 2) as ->
    by (unfold len; simpl String.length; lia).
  pose proof (len_nonneg r).
  change (str_take (Z.to_nat 0) (String "]" (String "[" r))) with "".
  change (str_drop (Z.to_nat 1) (String "]" (String "[" r)))
    with (String "[" r).
  change (str_drop (Z.to_nat (0 + 2)) (String "]" (String "[" r))) with r.
  assert ((String "[" r =? "[]")%string = false) as Hneq.
  { apply String.eqb_neq. intros [= ->]. done. }
  set (L := len r) in *. clearbody L.
  zbool; rewrite Hneq; done.
Qed.

(** An empty bracket group in the middle of a key: the name before it,
    then the empty string as a key, then the rest. *)
Lemma nestedQuery_inner_marker (data : QueryMap) (name r : string)
    (value : list string) :
  no_bracket name → r ≠ "]" →
  nestedQuery data (name +:+ "[][" +:+ r) value
  = inner ← nestedQuery newQueryMap r value;
    Ok (set data name (VMap {[ "" := VMap inner ]})).
Proof.
  intros [Hs He] Hr. rewrite nestedQuery_unfold. unfold nestedQuery_body at 1.
  rewrite (IndexRune_absent_app name _ "[" Hs).
  rewrite (IndexRune_absent_app name _ "]" He).
  change ("[][" +:+ r) with (String "[" (String "]" (String "[" r))).
  change (IndexRune (String "[" (String "]" (String "[" r))) "[") with 0.
  change (IndexRune (String "[" (String "]" (String "[" r))) "]") with 1.
  cbn [Z.eqb]. rewrite Z.add_0_r, slice_to_app_exact.
  unfold slice_from. rewrite len_app.
  assert (len (String "[" (String "]" (String "[" r))) = len r + 3) as ->
    by (unfold len; simpl String.length; lia).
  replace (Z.to_nat (len name + 1)) with (String.length name + 1)%nat
    by (unfold len; lia).
  rewrite str_drop_app_r.
  change (str_drop 1 (String "[" (String "]" (String "[" r))))
    with ("][" +:+ r).
  pose proof (len_nonneg r). pose proof (len_nonneg name).
  set (L := len r) in *. set (N := len name) in *. clearbody L N.
  zbool. rewrite nestedQuery_close_open by done.
  destruct (nestedQuery newQueryMap r value); cbn [mbind outcome_bind];
    [|done..].
  by rewrite set_empty.
Qed.
End markers.

(** ** The keys of the grammar *)

Section grammar.
Local Open Scope Z_scope.

Lemma IndexRune_cons_eq (c : ascii) (s : string) : IndexRune (String c s) c = 0.
Proof. simpl. by rewrite Ascii.eqb_refl. Qed.

Lemma IndexRune_cons_ne (a c : ascii) (s : string) :
  a ≠ c →
  IndexRune (String a s) c
  = if IndexRune s c =? -1 then -1 else IndexRune s c + 1.
Proof. intros Hne. simpl. by destruct (Ascii.eqb_spec a c). Qed.

(** In [p ++ c ++ s] with no [c] in [p], the first [c] is at [len p]. *)
Lemma IndexRune_app_hit (p s : string) (c : ascii) :
  IndexRune p c = -1 → IndexRune (p +:+ String c s) c = len p.
Proof.
  intros Hp. rewrite (IndexRune_absent_app _ _ _ Hp), IndexRune_cons_eq.
  cbn [Z.eqb]. lia.
Qed.

(** In [p ++ a ++ q ++ c ++ s] with [a ≠ c] and no [c] in [p] and [q], the
    first [c] is at [len p + 1 + len q]. *)
Lemma IndexRune_app_skip_hit (p q s : string) (a c : ascii) :
  a ≠ c → IndexRune p c = -1 → IndexRune q c = -1 →
  IndexRune (p +:+ String a (q +:+ String c s)) c = len p + 1 + len q.
Proof.
  intros Hne Hp Hq.
  rewrite (IndexRune_absent_app _ _ _ Hp), (IndexRune_cons_ne _ _ _ Hne).
  rewrite (IndexRune_app_hit _ _ _ Hq).
  pose proof (len_nonneg q). pose proof (len_nonneg p).
  set (lq := len q) in *. clearbody lq.
  destruct (Z.eqb_spec lq (-1)); [lia|]. zbool; lia.
Qed.

Lemma len_cons (a : ascii) (s : string) : len (String a s) = 1 + len s.
Proof. unfold len. simpl String.length. lia. Qed.

Lemma bracket_groups_empty (segs : list string) :
  bracket_groups segs = "" → segs = [].
Proof. by destruct segs. Qed.

(** A later activation: the key is [seg] followed by its closing bracket and
    the remaining groups. *)
Lemma nestedQuery_tail (segs : list string) (seg : string) (data : QueryMap)
    (value : list string) :
  no_bracket seg → Forall no_bracket segs → seg ≠ "" ∨ segs ≠ [] →
  nestedQuery data (seg +:+ "]" +:+ bracket_groups segs) value
  = Ok (set data seg (build_under segs value)).
Proof.
  revert seg data. induction segs as [|seg2 segs IH];
    intros seg data [Hs He] Hsegs Hne.
  - (* the last segment: a leaf *)
    destruct Hne as [Hne|]; [|done].
    cbn [bracket_groups build_under].
    assert (IndexRune (seg +:+ "]" +:+ "") "[" = -1) as Hs'.
    { by rewrite (IndexRune_absent_app _ _ _ Hs). }
    assert (IndexRune (seg +:+ "]" +:+ "") "]" = len seg) as He'.
    { apply (IndexRune_app_hit _ _ _ He). }
    rewrite nestedQuery_leaf; [|done|].
    + unfold leaf_name. rewrite He', len_app.
      change (len ("]" +:+ "")) with 1.
      pose proof (len_nonneg seg).
      replace (Z.to_nat (len seg)) with (String.length seg)
        by (unfold len; lia).
      rewrite str_take_app_exact.
      set (l := len seg) in *. clearbody l. zbool.
    + intros Heq. apply (f_equal len) in Heq. rewrite len_app in Heq.
      change (len ("]" +:+ "")) with 1 in Heq. change (len "]") with 1 in Heq.
      destruct seg; [done|]. rewrite len_cons in Heq.
      pose proof (len_nonneg seg). lia.
  - (* another group follows *)
    apply Forall_cons in Hsegs as [[Hs2 He2] Hsegs].
    cbn [bracket_groups].
    set (R := bracket_groups segs).
    change (seg +:+ "]" +:+ "[" +:+ seg2 +:+ "]" +:+ R)
      with (seg +:+ String "]" (String "[" (seg2 +:+ String "]" R))).
    rewrite nestedQuery_unfold. unfold nestedQuery_body at 1.
    rewrite (IndexRune_app_hit seg _ "]" He).
    assert (IndexRune (seg +:+ String "]" (String "[" (seg2 +:+ String "]" R))) "["
            = len seg + 1) as ->.
    { rewrite (IndexRune_absent_app _ _ _ Hs).
      rewrite IndexRune_cons_ne, IndexRune_cons_eq by done. simpl. lia. }
    rewrite slice_to_app_exact.
    unfold slice_from. rewrite !len_app, !len_cons, len_app, len_cons.
    replace (Z.to_nat (len seg + 1)) with (String.length seg + 1)%nat
      by (unfold len; lia).
    replace (Z.to_nat (len seg + 2)) with (String.length seg + 2)%nat
      by (unfold len; lia).
    rewrite !str_drop_app_r.
    cbn [str_drop].
    assert ((String "[" (seg2 +:+ String "]" R) =? "[]")%string
            = bool_decide (seg2 = "" ∧ segs = [])) as Heqb.
    { case_bool_decide as Hd.
      - destruct Hd as [-> ->]. reflexivity.
      - apply String.eqb_neq. intros Heq. apply Hd.
        destruct seg2 as [|a seg2]; [|by destruct seg2; simplify_eq/=].
        split; [done|]. apply bracket_groups_empty.
        rewrite str_app_nil_l in Heq. by simplify_eq. }
    pose proof (len_nonneg seg). pose proof (len_nonneg seg2).
    pose proof (len_nonneg R).
    case_bool_decide as Hd.
    + destruct Hd as [-> ->]. subst R. cbn [bracket_groups] in *.
      change (len "") with 0 in *.
      set (l := len seg) in *. clearbody l.
      zbool; rewrite Heqb; cbn [andb]; zbool.
    + set (l := len seg) in *. set (l2 := len seg2) in *.
      set (lR := len R) in *. clearbody l l2 lR.
      zbool; rewrite Heqb; cbn [andb mbind outcome_bind].
      all: rewrite IH by
        first [done
              |destruct seg2; [right; intros ->; by apply Hd|by left]].
      all: cbn [mbind outcome_bind]; rewrite set_empty.
      all: destruct seg2, segs; try done; by destruct Hd.
Qed.

Lemma str_app_nil_r (s : string) : s +:+ "" = s.
Proof.
  induction s as [|a s IH]; [done|]. by rewrite str_app_cons, IH.
Qed.

Lemma len_zero (s : string) : len s = 0 → s = "".
Proof. destruct s; [done|]. rewrite len_cons. pose proof (len_nonneg s). lia. Qed.

(** The parser on the keys of the grammar. *)
Lemma nestedQuery_grammar (name : string) (segs : list string)
    (data : QueryMap) (value : list string) :
  no_bracket name → Forall no_bracket segs →
  nestedQuery data (bracket_key name segs) value
  = Ok (set data name (build_under segs value)).
Proof.
  intros Hname Hsegs. unfold bracket_key.
  destruct segs as [|seg1 segs].
  { cbn [bracket_groups build_under]. rewrite str_app_nil_r.
    by apply nestedQuery_plain. }
  destruct (decide (seg1 = "" ∧ segs = [])) as [[-> ->]|Hd].
  { by apply nestedQuery_append_name. }
  apply Forall_cons in Hsegs as [[Hs1 He1] Hsegs]. destruct Hname as [Hs He].
  cbn [bracket_groups].
  set (R := bracket_groups segs).
  change (name +:+ "[" +:+ seg1 +:+ "]" +:+ R)
    with (name +:+ String "[" (seg1 +:+ String "]" R)).
  rewrite nestedQuery_unfold. unfold nestedQuery_body at 1.
  rewrite (IndexRune_app_hit name _ "[" Hs).
  rewrite (IndexRune_app_skip_hit name seg1 R "[" "]") by done.
  rewrite slice_to_app_exact.
  unfold slice_from, slice_to. rewrite !len_app, !len_cons, len_app, len_cons.
  replace (Z.to_nat (len name + 1)) with (String.length name + 1)%nat
    by (unfold len; lia).
  rewrite !str_drop_app_r. cbn [str_drop].
  assert (nestedQuery newQueryMap (seg1 +:+ String "]" R) value
          = Ok {[ seg1 := build_under segs value ]}) as Htail.
  { rewrite <-set_empty. apply (nestedQuery_tail segs seg1); [done..|].
    destruct seg1; [right; intros ->; by apply Hd|by left]. }
  assert (len seg1 = 0 → len R = 0 → False) as Hnot.
  { intros H1%len_zero H2%len_zero. apply Hd. split; [done|].
    by apply bracket_groups_empty. }
  pose proof (len_nonneg name). pose proof (len_nonneg seg1).
  pose proof (len_nonneg R).
  set (l := len name) in *. set (l1 := len seg1) in *. set (lR := len R) in *.
  clearbody l l1 lR.
  zbool; rewrite Htail; cbn [mbind outcome_bind];
    destruct seg1, segs; try done; by destruct Hd.
Qed.

(** With a non-empty last segment the leaf sits at the end of the path. *)
Lemma build_under_leaf (segs : list string) (vs : list string) :
  last segs ≠ Some "" → build_under segs vs = nest_under segs (leaf_value vs).
Proof.
  induction segs as [|seg segs IH]; [done|]. intros Hlast.
  cbn [build_under nest_under].
  destruct seg, segs; try done; rewrite IH; try done.
  all: by rewrite last_cons_cons in Hlast.
Qed.

(** With an empty last segment the raw value list sits where that segment
    would have been. *)
Lemma build_under_marker (segs : list string) (vs : list string) :
  build_under (segs ++ [""]) vs = nest_under segs (VStrings vs).
Proof.
  induction segs as [|seg segs IH]; [done|].
  cbn [app build_under nest_under]. rewrite IH.
  destruct seg; [|done]. by destruct segs.
Qed.

(** A segment that is followed by another one is a key of its level,
    whatever it is — the empty string for an empty group. *)
Lemma build_under_middle (before after : list string) (seg : string)
    (vs : list string) :
  after ≠ [] →
  build_under (before ++ seg :: after) vs
  = nest_under before (VMap {[ seg := build_under after vs ]}).
Proof.
  intros Hafter. induction before as [|b before IH].
  - cbn [app build_under nest_under]. by destruct seg, after.
  - cbn [app build_under nest_under]. rewrite IH.
    destruct b; [|done]. by destruct before.
Qed.
End grammar.

(** ** The normalizer, case by case *)

Section normalizer.
Local Open Scope Z_scope.

(** The counting loop: [total == keyAreNumbers] exactly when every key is
    numeric. *)
Lemma count_loop_spec (m : QueryMap) :
  let '(total, keyAreNumbers) :=
    map_fold (λ key (_ : value) '(total, keyAreNumbers),
                (total + 1,
                 if Atoi key is Some _ then keyAreNumbers + 1
                 else keyAreNumbers))
             (0, 0) m in
  0 ≤ keyAreNumbers ≤ total ∧ (total = keyAreNumbers ↔ numeric_keys m).
Proof.
  apply (map_fold_weak_ind (λ (acc : Z * Z) (m : QueryMap),
    let '(total, keyAreNumbers) := acc in
    0 ≤ keyAreNumbers ≤ total ∧ (total = keyAreNumbers ↔ numeric_keys m))).
  - split; [lia|]. split; [|done]. intros _ k [x Hx].
    by rewrite lookup_empty in Hx.
  - intros i x m' [t kn] Hi [Hle Hiff].
    assert (numeric_keys (<[i:=x]> m')
            ↔ is_Some (Atoi i) ∧ numeric_keys m') as Hins.
    { unfold numeric_keys. split.
      - intros Hall. split.
        + apply Hall. rewrite lookup_insert_eq. eauto.
        + intros k Hk. apply Hall. rewrite lookup_insert_ne; [done|].
          intros ->. rewrite Hi in Hk. by destruct Hk.
      - intros [Hi' Hall] k Hk.
        destruct (decide (i = k)) as [->|Hne]; [done|].
        apply Hall. by rewrite lookup_insert_ne in Hk. }
    destruct (Atoi i) as [n|] eqn:Hatoi.
    + split; [lia|]. rewrite Hins, <-Hiff. split.
      * intros ?. split; [eauto|lia].
      * intros [_ ?]. lia.
    + split; [lia|]. rewrite Hins. split; [lia|].
      intros [[? [=]] _].
Qed.

Lemma foldl_append_index (m : QueryMap) (acc : list value) (ks : list string) :
  foldl (λ slc valueKey, slc ++ [index_any m valueKey]) acc ks
  = acc ++ (index_any m <$> ks).
Proof.
  revert acc. induction ks as [|k ks IH]; intros acc; simpl.
  - by rewrite app_nil_r.
  - rewrite IH. by rewrite <-app_assoc.
Qed.

Lemma Normalize_numeric (m : QueryMap) :
  numeric_keys m →
  NormalizeSlicesNumbersIndexes (VMap m)
  = VAnyList (index_any m <$> slices_Sort (maps_Keys m)).
Proof.
  intros Hnum. simpl. pose proof (count_loop_spec m) as Hcount.
  destruct (map_fold _ _ m) as [t kn]. destruct Hcount as [_ Hiff].
  apply Hiff in Hnum as ->. rewrite Z.eqb_refl.
  by rewrite foldl_append_index.
Qed.

Lemma Normalize_object (m : QueryMap) :
  ¬ numeric_keys m →
  NormalizeSlicesNumbersIndexes (VMap m)
  = VMap (NormalizeSlicesNumbersIndexes <$> m).
Proof.
  intros Hnum. simpl. pose proof (count_loop_spec m) as Hcount.
  destruct (map_fold _ _ m) as [t kn]. destruct Hcount as [_ Hiff].
  destruct (Z.eqb_spec t kn) as [Heq|Hne]; [|done].
  by apply Hiff in Heq.
Qed.
End normalizer.

(** ** Sorted keys *)

Section sorted_keys.
Lemma le_ne_str_lt (a b : string) : String.le a b → a ≠ b → str_lt a b.
Proof.
  unfold String.le, String.leb, str_lt. intros Hle Hne.
  destruct (String.compare a b) eqn:Hc; [|done|done].
  by apply String.compare_eq_iff in Hc.
Qed.

Lemma StronglySorted_strict (ks : list string) :
  StronglySorted String.le ks → NoDup ks → StronglySorted str_lt ks.
Proof.
  induction 1 as [|k ks Hs IH Hall]; intros Hnd; [constructor|].
  apply NoDup_cons in Hnd as [Hk Hnd]. constructor; [by apply IH|].
  apply Forall_forall. intros k' Hk'. apply le_ne_str_lt.
  - by eapply Forall_forall in Hall.
  - intros ->. done.
Qed.

Lemma slices_Sort_perm (l : list string) : slices_Sort l ≡ₚ l.
Proof. apply merge_sort_Permutation. Qed.

Lemma slices_Sort_sorted (l : list string) :
  StronglySorted String.le (slices_Sort l).
Proof. apply (StronglySorted_merge_sort String.le). Qed.

(** The sorted result depends on the keys only, not on the order in which
    [maps.Keys] handed them over. *)
Lemma slices_Sort_unique (l1 l2 : list string) :
  l1 ≡ₚ l2 → slices_Sort l1 = slices_Sort l2.
Proof.
  intros Hp. apply (Sorted_unique String.le).
  - apply (Sorted_merge_sort String.le).
  - apply (Sorted_merge_sort String.le).
  - by rewrite !slices_Sort_perm.
Qed.

Lemma maps_Keys_NoDup {A} (m : gmap string A) : NoDup (maps_Keys m).
Proof. apply NoDup_fst_map_to_list. Qed.

Lemma elem_of_maps_Keys {A} (m : gmap string A) (k : string) :
  k ∈ maps_Keys m ↔ is_Some (m !! k).
Proof.
  unfold maps_Keys. rewrite list_elem_of_fmap. split.
  - intros ([k' x] & -> & Hin). apply elem_of_map_to_list in Hin. eauto.
  - intros [x Hx]. exists (k, x). split; [done|].
    by apply elem_of_map_to_list.
Qed.

Lemma sorted_keys_spec {A} (m : gmap string A) :
  StronglySorted str_lt (slices_Sort (maps_Keys m))
  ∧ ∀ k, k ∈ slices_Sort (maps_Keys m) ↔ is_Some (m !! k).
Proof.
  split.
  - apply StronglySorted_strict; [apply slices_Sort_sorted|].
    rewrite slices_Sort_perm. apply maps_Keys_NoDup.
  - intros k. rewrite slices_Sort_perm. apply elem_of_maps_Keys.
Qed.
End sorted_keys.

(** ** The pipeline *)

Section pipeline.
(** Keys without brackets, one value each: every key lands in the root as
    it is. *)
Lemma ingest_plain (scalars : gmap string string) (ks : list string)
    (data : QueryMap) :
  NoDup ks →
  (∀ k, k ∈ ks →
        no_bracket k ∧ data !! k = None ∧ is_Some (scalars !! k)) →
  ∃ r : QueryMap,
    ingest ((λ v, [v]) <$> scalars) data ks = Ok r
    ∧ ∀ j, r !! j = if decide (j ∈ ks) then VString <$> scalars !! j
                    else data !! j.
Proof.
  revert data. induction ks as [|k ks IH]; intros data Hnd Hks.
  - exists data. split; [done|]. intros j.
    destruct (decide (j ∈ [])) as [Hin|_]; [by inversion Hin|done].
  - apply NoDup_cons in Hnd as [Hk Hnd].
    destruct (Hks k) as (Hplain & Hfree & [v Hv]); [by left|].
    cbn [ingest]. rewrite (nestedQuery_plain _ _ _ Hplain).
    unfold index_values. rewrite lookup_fmap, Hv.
    cbn [fmap option_fmap option_map default leaf_value mbind outcome_bind].
    rewrite set_unfold_lookup, Hfree.
    destruct (IH (<[k:=VString v]> data)) as (r & Hr & Hlook); [done| |].
    { intros k' Hk'. destruct (Hks k') as (? & ? & ?); [by right|].
      split; [done|]. split; [|done].
      rewrite lookup_insert_ne; [done|]. intros ->. done. }
    exists r. split; [done|]. intros j. rewrite Hlook.
    destruct (decide (j = k)) as [->|Hne].
    + rewrite decide_False by done. rewrite decide_True by left.
      by rewrite lookup_insert_eq, Hv.
    + rewrite lookup_insert_ne by done.
      destruct (decide (j ∈ ks)) as [Hin|Hnin].
      * by rewrite decide_True by (by right).
      * rewrite decide_False; [done|]. intros Hin.
        apply elem_of_cons in Hin as [?|?]; done.
Qed.

Lemma FromValues_plain (scalars : gmap string string) :
  (∀ k, is_Some (scalars !! k) → no_bracket k) →
  FromValues ((λ v, [v]) <$> scalars) = Ok (VString <$> scalars).
Proof.
  intros Hplain. unfold FromValues, FromValues_ranging.
  set (urlQuery := (λ v, [v]) <$> scalars).
  destruct (sorted_keys_spec urlQuery) as [_ Hmem].
  assert (∀ k, k ∈ slices_Sort (maps_Keys urlQuery)
               ↔ is_Some (scalars !! k)) as Hmem'.
  { intros k. rewrite Hmem. unfold urlQuery. rewrite lookup_fmap.
    apply fmap_is_Some. }
  destruct (ingest_plain scalars (slices_Sort (maps_Keys urlQuery))
              newQueryMap) as (r & Hr & Hlook).
  { rewrite slices_Sort_perm. apply maps_Keys_NoDup. }
  { intros k Hk. apply Hmem' in Hk. split; [by apply Hplain|].
    split; [apply lookup_empty|done]. }
  fold urlQuery in Hr. rewrite Hr.
  cbn [mbind outcome_bind]. f_equal. apply map_eq. intros j.
  rewrite !lookup_fmap, Hlook.
  destruct (decide _) as [Hin|Hnin].
  - by destruct (scalars !! j).
  - unfold newQueryMap. rewrite lookup_empty.
    destruct (scalars !! j) eqn:Hj; [|done].
    exfalso. apply Hnin, Hmem'. eauto.
Qed.
End pipeline.

(** ** The pipeline ends *)

Section pipeline_ends.
Lemma ingest_terminates (urlQuery : gmap string (list string))
    (keys : list string) (data : QueryMap) :
  ingest urlQuery data keys ≠ OutOfFuel.
Proof.
  revert data. induction keys as [|key keys IH]; intros data; [done|].
  cbn [ingest].
  pose proof (nestedQuery_terminates data key (index_values urlQuery key)).
  destruct (nestedQuery data key (index_values urlQuery key));
    cbn [mbind outcome_bind]; [apply IH|done..].
Qed.

Lemma FromValues_terminates (urlQuery : gmap string (list string)) :
  FromValues urlQuery ≠ OutOfFuel.
Proof.
  unfold FromValues, FromValues_ranging.
  pose proof (ingest_terminates urlQuery
                (slices_Sort (maps_Keys urlQuery)) newQueryMap).
  destruct (ingest _ _ _); cbn [mbind outcome_bind]; done.
Qed.
End pipeline_ends.

(** ** Well-formed keys *)

Section well_formed.
(** On keys of the grammar the pipeline returns a tree: the panic needs a
    key outside the grammar. *)
Lemma ingest_grammar (urlQuery : gmap string (list string))
    (keys : list string) (data : QueryMap) :
  Forall grammar_key keys → ∃ r, ingest urlQuery data keys = Ok r.
Proof.
  revert data. induction keys as [|key keys IH]; intros data Hkeys.
  - by exists data.
  - apply Forall_cons in Hkeys as [(name & segs & -> & Hname & Hsegs) Hkeys].
    cbn [ingest]. rewrite nestedQuery_grammar by done.
    cbn [mbind outcome_bind]. by apply IH.
Qed.

Lemma FromValues_grammar (urlQuery : gmap string (list string)) :
  (∀ key, is_Some (urlQuery !! key) → grammar_key key) →
  ∃ r, FromValues urlQuery = Ok r.
Proof.
  intros Hkeys. unfold FromValues, FromValues_ranging.
  destruct (ingest_grammar urlQuery (slices_Sort (maps_Keys urlQuery))
              newQueryMap) as [r ->].
  - apply Forall_forall. intros key Hkey. apply Hkeys.
    by apply (sorted_keys_spec urlQuery).
  - cbn [mbind outcome_bind]. eauto.
Qed.
End well_formed.

(** ** The tests of the repository, replayed on the embedding *)

Example test_simple :
  FromValues {[ "b" := ["1"]; "c" := ["2"] ]}
  = Ok {[ "b" := VString "1"; "c" := VString "2" ]}.
Proof. vm_compute. reflexivity. Qed.

Example test_array :
  FromValues {[ "b[]" := ["1"; "2"] ]} = Ok {[ "b" := VStrings ["1"; "2"] ]}.
Proof. vm_compute. reflexivity. Qed.

Example test_nested :
  FromValues {[ "b[0]" := ["1"]; "b[1]" := ["2"] ]}
  = Ok {[ "b" := VAnyList [VString "1"; VString "2"] ]}.
Proof. vm_compute. reflexivity. Qed.

Example test_empty : FromValues ∅ = Ok ∅.
Proof. vm_compute. reflexivity. Qed.

Example test_multiple_nested_keys :
  FromValues {[ "a[b][c]" := ["1"]; "a[b][d]" := ["2"] ]}
  = Ok {[ "a" := VMap {[ "b" := VMap {[ "c" := VString "1";
                                         "d" := VString "2" ]} ]} ]}.
Proof. vm_compute. reflexivity. Qed.

Example test_array_with_object :
  FromValues {[ "b[0][c]" := ["1"]; "b[0][d]" := ["2"] ]}
  = Ok {[ "b" := VAnyList [VMap {[ "c" := VString "1"; "d" := VString "2" ]}] ]}.
Proof. vm_compute. reflexivity. Qed.

Example test_complex_query :
  FromValues {[ "a[b]" := ["1"]; "a[c][d][e]" := ["2"] ]}
  = Ok {[ "a" := VMap {[ "b" := VString "1";
                         "c" := VMap {[ "d" := VMap {[ "e" := VString "2" ]} ]} ]} ]}.
Proof. vm_compute. reflexivity. Qed.

Example test_numeric_keys :
  FromValues {[ "123" := ["hello"] ]} = Ok {[ "123" := VString "hello" ]}.
Proof. vm_compute. reflexivity. Qed.

Example test_empty_key :
  FromValues {[ "" := ["value"] ]} = Ok {[ "" := VString "value" ]}.
Proof. vm_compute. reflexivity. Qed.

Example test_nested_arrays :
  FromValues {[ "b[0][]" := ["1"; "2"]; "b[1][]" := ["3"] ]}
  = Ok {[ "b" := VAnyList [VStrings ["1"; "2"]; VStrings ["3"]] ]}.
Proof. vm_compute. reflexivity. Qed.

Example test_repeated_nested_keys :
  FromValues {[ "a[b]" := ["1"; "2"] ]}
  = Ok {[ "a" := VMap {[ "b" := VStrings ["1"; "2"] ]} ]}.
Proof. vm_compute. reflexivity. Qed.

Example test_hydrate_object :
  FromValues {[ "pagination[query][orders]" := ["1"];
                "pagination[query]" := ["1"];
                "pagination" := ["1"; "2"] ]}
  = Ok {[ "pagination" :=
            VAnyList [VString "1"; VString "2";
                      VMap {[ "query" := VString "1" ]};
                      VMap {[ "query" := VMap {[ "orders" := VString "1" ]} ]}] ]}.
Proof. vm_compute. reflexivity. Qed.

Example test_add_string_slice_to_string_slice :
  FromValues {[ "b" := ["1"; "2"]; "b[]" := ["3"] ]}
  = Ok {[ "b" := VStrings ["1"; "2"; "3"] ]}.
Proof. vm_compute. reflexivity. Qed.

Example test_add_nested_string_slice :
  FromValues {[ "data[b]" := ["1"; "2"]; "data[b][]" := ["3"] ]}
  = Ok {[ "data" := VMap {[ "b" := VStrings ["1"; "2"; "3"] ]} ]}.
Proof. vm_compute. reflexivity. Qed.

Example test_many_nested_structs :
  FromValues {[ "filter[name]" := ["Ken"; "Ken2"];
                "pagination[startFrom]" := ["984"; "982"];
                "pagination[limit]" := ["25"; "256"] ]}
  = Ok {[ "filter" := VMap {[ "name" := VStrings ["Ken"; "Ken2"] ]};
          "pagination" := VMap {[ "startFrom" := VStrings ["984"; "982"];
                                  "limit" := VStrings ["25"; "256"] ]} ]}.
Proof. vm_compute. reflexivity. Qed.

Example test_deep_nesting :
  FromValues {[ "a[b][c][d][e]" := ["value"] ]}
  = Ok {[ "a" := VMap {[ "b" := VMap {[ "c" := VMap {[ "d" :=
            VMap {[ "e" := VString "value" ]} ]} ]} ]} ]}.
Proof. vm_compute. reflexivity. Qed.

Example test_Normalize :
  NormalizeSlicesNumbersIndexes
    (VMap {[ "0" := VString "1"; "2" := VString "3"; "4" := VString "5" ]})
  = VAnyList [VString "1"; VString "3"; VString "5"].
Proof. vm_compute. reflexivity. Qed.

Example panic_later_unclosed :
  nestedQuery newQueryMap "a[b]c[d" ["1"] = Panicked
  ∧ nestedQuery newQueryMap "a[[b" ["1"] = Panicked
  ∧ nestedQuery newQueryMap "[" ["1"] = Panicked.
Proof. repeat split; vm_compute; reflexivity. Qed.

Example lone_close :
  FromValues {[ "]" := ["1"] ]} = Ok {[ "" := VStrings ["1"] ]}.
Proof. vm_compute. reflexivity. Qed.

Example test_set_table :
  let emptyQm : QueryMap := ∅ in
  let stringQm : QueryMap := {[ "a" := VString "b1" ]} in
  let stringsQm : QueryMap := {[ "a" := VStrings ["b1"; "b2"] ]} in
  let anyListQm : QueryMap := {[ "a" := VAnyList [VString "b1"; VString "b2"] ]} in
  let mapQm : QueryMap := {[ "a" := VMap {[ "b" := VString "1" ]} ]} in
  let stringIn := VString "v2" in
  let stringsIn := VStrings ["v2"; "v3"] in
  let anyListIn := VAnyList [VString "v2"; VString "v3"] in
  let mapIn := VMap {[ "v" := VString "1" ]} in
  set emptyQm "a" stringIn = {[ "a" := VString "v2" ]}
  ∧ set stringQm "a" stringIn = {[ "a" := VStrings ["b1"; "v2"] ]}
  ∧ set stringQm "a" stringsIn = {[ "a" := VStrings ["b1"; "v2"; "v3"] ]}
  ∧ set stringQm "a" anyListIn
    = {[ "a" := VAnyList [VString "b1"; VString "v2"; VString "v3"] ]}
  ∧ set stringQm "a" mapIn
    = {[ "a" := VAnyList [VString "b1"; VMap {[ "v" := VString "1" ]}] ]}
  ∧ set stringsQm "a" stringIn = {[ "a" := VStrings ["b1"; "b2"; "v2"] ]}
  ∧ set stringsQm "a" stringsIn
    = {[ "a" := VStrings ["b1"; "b2"; "v2"; "v3"] ]}
  ∧ set stringsQm "a" anyListIn
    = {[ "a" := VAnyList [VString "b1"; VString "b2"; VString "v2";
                          VString "v3"] ]}
  ∧ set stringsQm "a" mapIn
    = {[ "a" := VAnyList [VString "b1"; VString "b2";
                          VMap {[ "v" := VString "1" ]}] ]}
  ∧ set anyListQm "a" stringIn
    = {[ "a" := VAnyList [VString "b1"; VString "b2"; VString "v2"] ]}
  ∧ set anyListQm "a" stringsIn
    = {[ "a" := VAnyList [VString "b1"; VString "b2"; VString "v2";
                          VString "v3"] ]}
  ∧ set anyListQm "a" anyListIn
    = {[ "a" := VAnyList [VString "b1"; VString "b2"; VString "v2";
                          VString "v3"] ]}
  ∧ set anyListQm "a" mapIn
    = {[ "a" := VAnyList [VString "b1"; VString "b2";
                          VMap {[ "v" := VString "1" ]}] ]}
  ∧ set mapQm "a" stringIn
    = {[ "a" := VAnyList [VMap {[ "b" := VString "1" ]}; VString "v2"] ]}
  ∧ set mapQm "a" stringsIn
    = {[ "a" := VAnyList [VMap {[ "b" := VString "1" ]}; VString "v2";
                          VString "v3"] ]}
  ∧ set mapQm "a" anyListIn
    = {[ "a" := VAnyList [VMap {[ "b" := VString "1" ]}; VString "v2";
                          VString "v3"] ]}
  ∧ set mapQm "a" mapIn
    = {[ "a" := VMap {[ "b" := VString "1"; "v" := VString "1" ]} ]}.
Proof. repeat split; vm_compute; reflexivity. Qed.

(** ** Leaves, shapes and panics *)

Section folds.
Lemma map_fold_andb {A} (P : string → A → bool) (m : gmap string A) :
  map_fold (λ k x b, P k x && b) true m = true
  ↔ ∀ k x, m !! k = Some x → P k x = true.
Proof.
  apply (map_fold_weak_ind (λ b m,
    b = true ↔ ∀ k x, m !! k = Some x → P k x = true)).
  - split; [|done]. intros _ k x. by rewrite lookup_empty.
  - intros i x m' b Hi IH. rewrite andb_true_iff, IH. split.
    + intros [Hx Hm] k y. rewrite lookup_insert_Some.
      intros [[<- <-]|[_ Hk]]; eauto.
    + intros Hall. split.
      * apply Hall. by rewrite lookup_insert_eq.
      * intros k y Hk. apply Hall. rewrite lookup_insert_ne; [done|].
        intros ->. congruence.
Qed.

Lemma forallb_elem_of {A} (P : A → bool) (l : list A) :
  forallb P l = true ↔ ∀ x, x ∈ l → P x = true.
Proof.
  rewrite forallb_forall. by setoid_rewrite list_elem_of_In.
Qed.

Lemma all_numeric_spec (m : QueryMap) : all_numeric m = true ↔ numeric_keys m.
Proof.
  unfold all_numeric, numeric_keys.
  rewrite (map_fold_andb (λ k _, if Atoi k is Some _ then true else false)).
  split.
  - intros Hall k [x Hx]. specialize (Hall k x Hx).
    destruct (Atoi k); [by eexists|done].
  - intros Hall k x Hx. destruct (Hall k) as [n ->]; eauto.
Qed.

Lemma well_shaped_map (m : QueryMap) :
  well_shaped (VMap m) = true ↔ ∀ k x, m !! k = Some x → well_shaped x = true.
Proof. apply (map_fold_andb (λ _ x, well_shaped x)). Qed.

Lemma well_shaped_list (l : list value) :
  well_shaped (VAnyList l) = true ↔ ∀ x, x ∈ l → well_shaped x = true.
Proof. apply forallb_elem_of. Qed.

Lemma leaves_list_app (l1 l2 : list value) :
  leaves_list (l1 ++ l2) = leaves_list l1 ++ leaves_list l2.
Proof.
  unfold leaves_list.
  induction l1 as [|x l1 IH]; [done|]. simpl. by rewrite IH, app_assoc.
Qed.

Lemma leaves_list_strings (l : list string) : leaves_list (VString <$> l) = l.
Proof.
  unfold leaves_list. induction l as [|s l IH]; [done|].
  rewrite fmap_cons. cbn [foldr leaves app]. by rewrite IH.
Qed.

Lemma leaves_list_perm (l1 l2 : list value) :
  l1 ≡ₚ l2 → leaves_list l1 ≡ₚ leaves_list l2.
Proof.
  unfold leaves_list.
  induction 1 as [|x l1 l2 _ IH|x y l|l1 l2 l3 _ IH1 _ IH2]; simpl.
  - done.
  - by rewrite IH.
  - rewrite !app_assoc. f_equiv. apply Permutation_app_comm.
  - by rewrite IH1.
Qed.

Lemma leaves_map_list (m : QueryMap) :
  leaves (VMap m) = leaves_list (map_to_list m).*2.
Proof.
  simpl. rewrite map_fold_foldr. unfold leaves_list.
  induction (map_to_list m) as [|[k x] l IH]; [done|]. simpl. by rewrite IH.
Qed.

Lemma leaves_insert (m : QueryMap) (k : string) (x : value) :
  m !! k = None → leaves (VMap (<[k:=x]> m)) ≡ₚ leaves x ++ leaves (VMap m).
Proof.
  intros Hk. rewrite !leaves_map_list.
  rewrite (leaves_list_perm _ (x :: (map_to_list m).*2)); [done|].
  by rewrite map_to_list_insert.
Qed.

Lemma leaves_lookup (m : QueryMap) (k : string) (x : value) :
  m !! k = Some x →
  leaves (VMap m) ≡ₚ leaves x ++ leaves (VMap (delete k m)).
Proof.
  intros Hk. rewrite <-leaves_insert by apply lookup_delete_eq.
  by rewrite insert_delete_id.
Qed.

Lemma leaves_replace (m : QueryMap) (k : string) (x y : value) :
  m !! k = Some x →
  leaves (VMap (<[k:=y]> m)) ++ leaves x ≡ₚ leaves y ++ leaves (VMap m).
Proof.
  intros Hk. rewrite <-(insert_delete_eq m k y).
  rewrite leaves_insert by apply lookup_delete_eq.
  rewrite (leaves_lookup m k x Hk).
  rewrite <-!app_assoc. f_equiv. apply Permutation_app_comm.
Qed.
End folds.

Section merge_engine.
Lemma union_with_empty_r (me : QueryMap) :
  union_with (λ a b, Some (merge_lattice a b)) me ∅ = me.
Proof.
  apply map_eq. intros j. rewrite lookup_union_with, lookup_empty.
  by destruct (me !! j).
Qed.

Lemma union_with_insert_r (me mi : QueryMap) (k : string) (x : value) :
  mi !! k = None →
  union_with (λ a b, Some (merge_lattice a b)) me (<[k:=x]> mi)
  = <[k := match me !! k with Some a => merge_lattice a x | None => x end]>
      (union_with (λ a b, Some (merge_lattice a b)) me mi).
Proof.
  intros Hk. apply map_eq. intros j. rewrite lookup_union_with.
  destruct (decide (k = j)) as [->|Hne].
  - rewrite !lookup_insert_eq. by destruct (me !! j).
  - rewrite !lookup_insert_ne by done. by rewrite lookup_union_with.
Qed.

Lemma well_shaped_strings (l : list string) :
  forallb well_shaped (VString <$> l) = true.
Proof. induction l as [|s l IH]; [done|]. by rewrite fmap_cons. Qed.

Lemma leaves_any_list (l : list value) : leaves (VAnyList l) = leaves_list l.
Proof. done. Qed.

(** Merging two Objects key by key keeps every leaf and every shape, as
    soon as merging their values does. *)
Lemma union_with_leaves (mi : QueryMap) :
  (∀ k x, mi !! k = Some x →
     well_shaped x = true
     ∧ ∀ e, well_shaped e = true →
            leaves (merge_lattice e x) ≡ₚ leaves e ++ leaves x
            ∧ well_shaped (merge_lattice e x) = true) →
  ∀ me : QueryMap, well_shaped (VMap me) = true →
    leaves (VMap (union_with (λ a b, Some (merge_lattice a b)) me mi))
    ≡ₚ leaves (VMap me) ++ leaves (VMap mi)
    ∧ well_shaped (VMap (union_with (λ a b, Some (merge_lattice a b)) me mi))
      = true.
Proof.
  induction mi as [|k x mi Hk IH] using map_ind; intros Hmi me Hme.
  - rewrite union_with_empty_r. split; [|done].
    change (leaves (VMap ∅)) with (@nil string). by rewrite app_nil_r.
  - rewrite union_with_insert_r by done.
    destruct (Hmi k x) as [Hx Hmerge]; [apply lookup_insert_eq|].
    destruct (IH) with (me := me) as [Hleaves Hshape]; [|done|].
    { intros k' x' Hk'. apply (Hmi k'). rewrite lookup_insert_ne; [done|].
      intros ->. congruence. }
    set (U := union_with (λ a b, Some (merge_lattice a b)) me mi) in *.
    assert (U !! k = me !! k) as HU.
    { unfold U. rewrite lookup_union_with, Hk. by destruct (me !! k). }
    rewrite (leaves_insert mi k x Hk).
    destruct (me !! k) as [a|] eqn:Ha.
    + assert (well_shaped a = true) as Hwa
        by apply (proj1 (well_shaped_map me) Hme k a Ha).
      destruct (Hmerge a Hwa) as [Hl Hs]. split.
      * apply (Permutation_app_inv_r (leaves a)).
        rewrite (leaves_replace U k a _ HU), Hl, Hleaves.
        rewrite (Permutation_app_comm _ (leaves a)), <-!app_assoc. f_equiv.
        apply Permutation_app_swap_app.
      * apply well_shaped_map. intros k' x'. rewrite lookup_insert_Some.
        intros [[_ <-]|[_ Hk']]; [done|].
        apply (proj1 (well_shaped_map U) Hshape k' x' Hk').
    + split.
      * rewrite leaves_insert by done. rewrite Hleaves.
        apply Permutation_app_swap_app.
      * apply well_shaped_map. intros k' x'. rewrite lookup_insert_Some.
        intros [[_ <-]|[_ Hk']]; [done|].
        apply (proj1 (well_shaped_map U) Hshape k' x' Hk').
Qed.

Lemma leaves_list_cons (x : value) (l : list value) :
  leaves_list (x :: l) = leaves x ++ leaves_list l.
Proof. done. Qed.

Lemma leaves_list_nil : leaves_list [] = [].
Proof. done. Qed.

Lemma well_shaped_any_list (l : list value) :
  well_shaped (VAnyList l) = forallb well_shaped l.
Proof. done. Qed.

Lemma merge_lattice_leaves (i e : value) :
  well_shaped e = true → well_shaped i = true →
  leaves (merge_lattice e i) ≡ₚ leaves e ++ leaves i
  ∧ well_shaped (merge_lattice e i) = true.
Proof.
  revert e. induction i as [s|l|l _|mi IH|f] using value_tree_ind;
    intros [se|le|le|me|fe] He Hi; try done.
  all: try (split;
    [ cbn [merge_lattice];
      rewrite ?leaves_any_list, ?leaves_list_app, ?leaves_list_cons,
        ?leaves_list_strings, ?leaves_list_nil, ?app_nil_r;
      rewrite ?leaves_any_list; done
    | cbn [merge_lattice]; rewrite ?well_shaped_any_list in *;
      rewrite ?forallb_app, ?well_shaped_strings; cbn [forallb andb];
      rewrite ?well_shaped_strings, ?He, ?Hi; done ]).
  apply union_with_leaves; [|done].
  intros k x Hk.
  pose proof (proj1 (well_shaped_map mi) Hi k x Hk) as Hx.
  split; [done|]. intros e' He'. by apply (IH k x Hk).
Qed.
End merge_engine.

Section merge_engine_results.
Lemma set_leaves_shape (q : QueryMap) (key : string) (v : value) :
  well_shaped (VMap q) = true → well_shaped v = true →
  leaves (VMap (set q key v)) ≡ₚ leaves (VMap q) ++ leaves v
  ∧ well_shaped (VMap (set q key v)) = true.
Proof.
  intros Hq Hv. rewrite set_is_set_spec. unfold set_spec.
  destruct (q !! key) as [e|] eqn:He.
  - pose proof (proj1 (well_shaped_map q) Hq key e He) as Hwe.
    destruct (merge_lattice_leaves v e Hwe Hv) as [Hl Hs]. split.
    + apply (Permutation_app_inv_r (leaves e)).
      rewrite (leaves_replace q key e _ He), Hl.
      rewrite (Permutation_app_comm _ (leaves e)), <-!app_assoc. f_equiv.
      apply Permutation_app_comm.
    + apply well_shaped_map. intros k x. rewrite lookup_insert_Some.
      intros [[_ <-]|[_ Hk]]; [done|].
      apply (proj1 (well_shaped_map q) Hq k x Hk).
  - split.
    + rewrite leaves_insert by done. apply Permutation_app_comm.
    + apply well_shaped_map. intros k x. rewrite lookup_insert_Some.
      intros [[_ <-]|[_ Hk]]; [done|].
      apply (proj1 (well_shaped_map q) Hq k x Hk).
Qed.

Lemma set_strings_onto_list (q : QueryMap) (key : string)
    (l vs : list string) :
  foldl (λ q v, set q key (VString v)) (<[key := VStrings l]> q) vs
  = <[key := VStrings (l ++ vs)]> q.
Proof.
  revert l. induction vs as [|v vs IH]; intros l.
  - by rewrite app_nil_r.
  - cbn [foldl]. rewrite set_is_set_spec. unfold set_spec.
    rewrite lookup_insert_eq, insert_insert_eq. cbn [merge_lattice].
    rewrite IH. by rewrite <-app_assoc.
Qed.

End merge_engine_results.

Section parser_structure.
Local Open Scope Z_scope.

Lemma set_as_union (data : QueryMap) (name : string) (x : value) :
  set data name x
  = union_with (λ a b, Some (merge_lattice a b)) data {[ name := x ]}.
Proof.
  rewrite set_is_set_spec. unfold set_spec. apply map_eq. intros j.
  rewrite lookup_union_with.
  destruct (decide (name = j)) as [->|Hne].
  - rewrite lookup_singleton_eq.
    destruct (data !! j); by rewrite lookup_insert_eq.
  - rewrite lookup_singleton_ne by done.
    destruct (data !! name); rewrite lookup_insert_ne by done;
      by destruct (data !! j).
Qed.

(** What a call does to [data] is to merge in what it builds from nothing. *)
Lemma nestedQuery_fresh (data : QueryMap) (key : string) (value : list string) :
  nestedQuery data key value
  = fresh ← nestedQuery newQueryMap key value;
    Ok (union_with (λ a b, Some (merge_lattice a b)) data fresh).
Proof.
  rewrite !(nestedQuery_unfold _ key). unfold nestedQuery_body.
  match goal with |- mbind _ ?o = _ => destruct o as [ck| |] end;
    cbn [mbind outcome_bind]; try done.
  match goal with |- mbind _ ?o = _ => destruct o as [[|]| |] end;
    cbn [mbind outcome_bind]; try done.
  { by rewrite set_empty, set_as_union. }
  destruct (negb (IndexRune key "[" =? -1)).
  - match goal with |- mbind _ ?o = _ => destruct o as [nk| |] end;
      cbn [mbind outcome_bind]; try done.
    destruct (nestedQuery newQueryMap nk value);
      cbn [mbind outcome_bind]; try done.
    by rewrite set_empty, set_as_union.
  - destruct value as [|v [|w value]]; cbn [mbind outcome_bind];
      by rewrite set_empty, set_as_union.
Qed.

(** What a call builds from nothing is one chain: a name, single-key
    Objects below it, and at the end the raw values, as one string or as the
    []string. *)
Lemma nestedQuery_chain (key : string) (value : list string) (fresh : QueryMap) :
  nestedQuery newQueryMap key value = Ok fresh →
  ∃ name path leaf,
    fresh = {[ name := nest_under path leaf ]}
    ∧ (leaf = VStrings value ∨ leaf = leaf_value value).
Proof.
  remember (String.length key) as n eqn:Hn.
  revert key fresh Hn.
  induction (lt_wf n) as [n _ IH]. intros key fresh ->.
  rewrite nestedQuery_unfold. unfold nestedQuery_body.
  pose proof (IndexRune_bounds key "[") as Hs.
  pose proof (IndexRune_bounds key "]") as He.
  set (s := IndexRune key "[") in *. set (e := IndexRune key "]") in *.
  match goal with |- mbind _ ?o = _ → _ => destruct o as [ck| |] end;
    cbn [mbind outcome_bind]; try done.
  match goal with |- mbind _ ?o = _ → _ => destruct o as [[|]| |] end;
    cbn [mbind outcome_bind]; try done.
  { rewrite set_empty. intros [= <-]. exists ck, [], (VStrings value). eauto. }
  destruct (Z.eqb_spec s (-1)) as [Hs1|Hs1]; cbn [negb].
  { intros Hleaf. exists ck, [], (leaf_value value). split; [|by right].
    rewrite <-set_empty.
    destruct value as [|v [|w value]]; by injection Hleaf as <-. }
  match goal with |- mbind _ ?o = _ → _ => destruct o as [nk| |] eqn:Hnk end;
    cbn [mbind outcome_bind]; try done.
  assert (String.length nk < String.length key)%nat as Hlt.
  { destruct (negb (e =? -1) && (e <? s)) eqn:Hb.
    - apply andb_prop in Hb as [Hb _]. apply negb_true_iff, Z.eqb_neq in Hb.
      eapply slice_from_shorter; [done|lia].
    - eapply slice_from_shorter; [done|lia]. }
  destruct (nestedQuery newQueryMap nk value) as [inner| |] eqn:Hinner;
    cbn [mbind outcome_bind]; try done.
  destruct (IH _ Hlt nk inner eq_refl Hinner) as (name & path & leaf & -> & Hleaf).
  rewrite set_empty. intros [= <-].
  by exists ck, (name :: path), leaf.
Qed.

Lemma leaves_singleton (name : string) (x : value) :
  leaves (VMap {[ name := x ]}) = leaves x.
Proof.
  rewrite leaves_map_list, map_to_list_singleton. cbn. apply app_nil_r.
Qed.

Lemma leaves_nest_under (path : list string) (leaf : value) :
  leaves (nest_under path leaf) = leaves leaf.
Proof.
  induction path as [|k path IH]; [done|].
  cbn [nest_under]. by rewrite leaves_singleton.
Qed.

Lemma well_shaped_singleton (name : string) (x : value) :
  well_shaped (VMap {[ name := x ]}) = well_shaped x.
Proof.
  cbn [well_shaped]. rewrite map_fold_singleton. apply andb_true_r.
Qed.

Lemma well_shaped_nest_under (path : list string) (leaf : value) :
  well_shaped (nest_under path leaf) = well_shaped leaf.
Proof.
  induction path as [|k path IH]; [done|].
  cbn [nest_under]. by rewrite well_shaped_singleton.
Qed.

Lemma leaf_value_leaves (vs : list string) : leaves (leaf_value vs) = vs.
Proof. by destruct vs as [|v [|w vs]]. Qed.

Lemma leaf_value_shaped (vs : list string) : well_shaped (leaf_value vs) = true.
Proof. by destruct vs as [|v [|w vs]]. Qed.

(** A call keeps the leaves that were there, adds the raw values it was
    given, and keeps the four shapes. *)
Lemma nestedQuery_leaves_shape (data r : QueryMap) (key : string)
    (value : list string) :
  well_shaped (VMap data) = true →
  nestedQuery data key value = Ok r →
  leaves (VMap r) ≡ₚ leaves (VMap data) ++ value
  ∧ well_shaped (VMap r) = true.
Proof.
  intros Hdata. rewrite nestedQuery_fresh.
  destruct (nestedQuery newQueryMap key value) as [fresh| |] eqn:Hfresh;
    cbn [mbind outcome_bind]; try done.
  destruct (nestedQuery_chain _ _ _ Hfresh)
    as (name & path & leaf & -> & Hleaf).
  rewrite <-set_as_union. intros [= <-].
  assert (leaves (nest_under path leaf) = value
          ∧ well_shaped (nest_under path leaf) = true) as [Hl Hs].
  { rewrite leaves_nest_under, well_shaped_nest_under.
    destruct Hleaf as [->| ->]; [done|].
    by rewrite leaf_value_leaves, leaf_value_shaped. }
  destruct (set_leaves_shape data name _ Hdata Hs) as [H1 H2].
  split; [by rewrite H1, Hl|done].
Qed.
End parser_structure.

Section panics.
Local Open Scope Z_scope.

(** Whether a call panics is a matter of the key alone. *)
Lemma nestedQuery_panic_transfer (key : string) (data data' : QueryMap)
    (value value' : list string) :
  nestedQuery data key value = Panicked →
  nestedQuery data' key value' = Panicked.
Proof.
  remember (String.length key) as n eqn:Hn.
  revert key data data' Hn.
  induction (lt_wf n) as [n _ IH]. intros key data data' ->.
  rewrite !(nestedQuery_unfold _ key). unfold nestedQuery_body.
  pose proof (IndexRune_bounds key "[") as Hs.
  pose proof (IndexRune_bounds key "]") as He.
  set (s := IndexRune key "[") in *. set (e := IndexRune key "]") in *.
  match goal with |- mbind _ ?o = _ → _ => destruct o as [ck| |] end;
    cbn [mbind outcome_bind]; try done.
  match goal with |- mbind _ ?o = _ → _ => destruct o as [[|]| |] end;
    cbn [mbind outcome_bind]; try done.
  destruct (Z.eqb_spec s (-1)) as [Hs1|Hs1]; cbn [negb].
  { by destruct value as [|v [|w value]]. }
  match goal with |- mbind _ ?o = _ → _ => destruct o as [nk| |] eqn:Hnk end;
    cbn [mbind outcome_bind]; try done.
  assert (String.length nk < String.length key)%nat as Hlt.
  { destruct (negb (e =? -1) && (e <? s)) eqn:Hb.
    - apply andb_prop in Hb as [Hb _]. apply negb_true_iff, Z.eqb_neq in Hb.
      eapply slice_from_shorter; [done|lia].
    - eapply slice_from_shorter; [done|lia]. }
  destruct (nestedQuery newQueryMap nk value) as [inner| |] eqn:Hinner;
    cbn [mbind outcome_bind]; try done.
  intros _.
  by rewrite (IH _ Hlt nk newQueryMap newQueryMap eq_refl Hinner).
Qed.

Lemma brackets_closed_drop (n : nat) (s : string) :
  brackets_closed s = true → brackets_closed (str_drop n s) = true.
Proof.
  revert s. induction n as [|n IH]; intros [|a s]; try done.
  cbn [brackets_closed str_drop]. intros [_ Hs]%andb_prop. by apply IH.
Qed.

Lemma brackets_closed_head (key : string) :
  brackets_closed key = true → IndexRune key "[" = 0 →
  IndexRune key "]" ≠ -1.
Proof.
  intros Hc [rest ->]%IndexRune_head.
  cbn [brackets_closed] in Hc. rewrite Ascii.eqb_refl in Hc.
  apply andb_prop in Hc as [Hc%negb_true_iff%Z.eqb_neq _].
  rewrite IndexRune_cons_ne by done.
  pose proof (IndexRune_bounds rest "]").
  destruct (Z.eqb_spec (IndexRune rest "]") (-1)); lia.
Qed.

(** A key in which every opening bracket is followed, somewhere, by a
    closing one never makes the parser panic. *)
Lemma nestedQuery_closed_ok (key : string) (data : QueryMap)
    (value : list string) :
  brackets_closed key = true → ∃ r, nestedQuery data key value = Ok r.
Proof.
  remember (String.length key) as n eqn:Hn.
  revert key data Hn.
  induction (lt_wf n) as [n _ IH]. intros key data -> Hclosed.
  rewrite nestedQuery_unfold. unfold nestedQuery_body.
  pose proof (IndexRune_bounds key "[") as Hs.
  pose proof (IndexRune_bounds key "]") as He.
  pose proof (brackets_closed_head key Hclosed) as Hhead.
  assert (∀ lo, 1 ≤ lo ≤ len key →
            ∃ inner, nestedQuery newQueryMap (str_drop (Z.to_nat lo) key) value
                     = Ok inner) as Hrec.
  { intros lo Hlo. eapply IH; [|done|by apply brackets_closed_drop].
    rewrite str_drop_length. unfold len in Hlo. lia. }
  unfold slice_to, slice_from.
  set (s := IndexRune key "[") in *. set (e := IndexRune key "]") in *.
  set (L := len key) in *.
  assert (0 ≤ s → ∃ inner, nestedQuery newQueryMap
            (str_drop (Z.to_nat (s + 1)) key) value = Ok inner) as Hin1.
  { intros ?. apply Hrec. lia. }
  assert (0 ≤ e → e < s → ∃ inner, nestedQuery newQueryMap
            (str_drop (Z.to_nat (e + 2)) key) value = Ok inner) as Hin2.
  { intros ??. apply Hrec. lia. }
  clearbody s e L. clear Hrec IH.
  zbool.
  all: repeat match goal with
       | |- context [String.eqb ?a ?b] => destruct (String.eqb a b)
       end; cbn [andb mbind outcome_bind].
  all: try (destruct value as [|v [|w value]]; by eauto).
  all: try (destruct Hin1 as [inner ->]; [lia|];
            cbn [mbind outcome_bind]; by eauto).
  all: try (destruct Hin2 as [inner ->]; [lia..|];
            cbn [mbind outcome_bind]; by eauto).
Qed.
End panics.

Section normalizer_keeps.
Lemma index_any_keys (m : QueryMap) :
  index_any m <$> maps_Keys m = (map_to_list m).*2.
Proof.
  unfold maps_Keys. rewrite <-list_fmap_compose.
  apply list_fmap_ext. intros i [k x] Hkx. cbn.
  apply list_elem_of_lookup_2, elem_of_map_to_list in Hkx.
  unfold index_any. by rewrite Hkx.
Qed.

Lemma values_in_key_order (m : QueryMap) :
  index_any m <$> slices_Sort (maps_Keys m) ≡ₚ (map_to_list m).*2.
Proof. by rewrite slices_Sort_perm, index_any_keys. Qed.

Lemma leaves_list_fmap (f : value → value) (l : list value) :
  Forall (λ x, leaves (f x) ≡ₚ leaves x) l →
  leaves_list (f <$> l) ≡ₚ leaves_list l.
Proof.
  induction 1 as [|x l Hx _ IH]; [done|].
  rewrite fmap_cons, !leaves_list_cons. by rewrite Hx, IH.
Qed.

Lemma leaves_fmap (f : value → value) (m : QueryMap) :
  map_Forall (λ _ x, leaves (f x) ≡ₚ leaves x) m →
  leaves (VMap (f <$> m)) ≡ₚ leaves (VMap m).
Proof.
  intros Hm. rewrite !leaves_map_list, map_to_list_fmap.
  rewrite <-list_fmap_compose.
  change (snd ∘ prod_map id f) with (f ∘ (snd : string * value → value)).
  rewrite list_fmap_compose. apply leaves_list_fmap.
  apply Forall_fmap, Forall_forall. intros [k x] Hkx.
  apply elem_of_map_to_list in Hkx. by apply (Hm k x).
Qed.

(** The normalizer moves values around but keeps every leaf. *)
Lemma Normalize_leaves (v : value) :
  leaves (NormalizeSlicesNumbersIndexes v) ≡ₚ leaves v.
Proof.
  induction v as [s|l|l IH|m IH|f] using value_tree_ind; try done.
  - cbn [NormalizeSlicesNumbersIndexes]. rewrite !leaves_any_list.
    by apply leaves_list_fmap.
  - destruct (all_numeric m) eqn:Hnum.
    + rewrite Normalize_numeric by by apply all_numeric_spec.
      rewrite leaves_any_list, leaves_map_list.
      apply leaves_list_perm, values_in_key_order.
    + rewrite Normalize_object; [by apply leaves_fmap|].
      intros Hn%all_numeric_spec. congruence.
Qed.

Lemma well_shaped_fmap (f : value → value) (m : QueryMap) :
  map_Forall (λ _ x, well_shaped x = true → well_shaped (f x) = true) m →
  well_shaped (VMap m) = true → well_shaped (VMap (f <$> m)) = true.
Proof.
  intros Hm Hws. apply well_shaped_map. intros k y.
  rewrite lookup_fmap_Some. intros (x & <- & Hx).
  apply (Hm k x Hx), (proj1 (well_shaped_map m) Hws k x Hx).
Qed.

(** The normalizer keeps the four shapes. *)
Lemma Normalize_shape (v : value) :
  well_shaped v = true → well_shaped (NormalizeSlicesNumbersIndexes v) = true.
Proof.
  induction v as [s|l|l IH|m IH|f] using value_tree_ind; try done.
  - cbn [NormalizeSlicesNumbersIndexes]. rewrite !well_shaped_list.
    intros Hl y. rewrite list_elem_of_fmap. intros (x & -> & Hx).
    rewrite Forall_forall in IH. apply IH; [done|]. by apply Hl.
  - intros Hm. destruct (all_numeric m) eqn:Hnum.
    + rewrite Normalize_numeric by by apply all_numeric_spec.
      apply well_shaped_list. intros y. rewrite list_elem_of_fmap.
      intros (k & -> & Hk). apply sorted_keys_spec in Hk as [x Hx].
      unfold index_any. rewrite Hx.
      apply (proj1 (well_shaped_map m) Hm k x Hx).
    + rewrite Normalize_object; [by apply well_shaped_fmap|].
      intros Hn%all_numeric_spec. congruence.
Qed.
End normalizer_keeps.

Section normalizer_fixpoints.
Lemma all_numeric_fmap (f : value → value) (m : QueryMap) :
  all_numeric (f <$> m) = all_numeric m.
Proof. unfold all_numeric. by rewrite map_fold_fmap. Qed.

Lemma clean_map (m : QueryMap) :
  clean (VMap m) = true
  ↔ all_numeric m = false ∧ ∀ k x, m !! k = Some x → clean x = true.
Proof.
  cbn [clean]. rewrite andb_true_iff, negb_true_iff.
  by rewrite (map_fold_andb (λ _ x, clean x)).
Qed.

Lemma clean_list (l : list value) :
  clean (VAnyList l) = true ↔ ∀ x, x ∈ l → clean x = true.
Proof. apply forallb_elem_of. Qed.

(** On a tree without all-numeric Objects the normalizer changes nothing. *)
Lemma Normalize_clean (v : value) :
  clean v = true → NormalizeSlicesNumbersIndexes v = v.
Proof.
  induction v as [s|l|l IH|m IH|f] using value_tree_ind; try done.
  - rewrite clean_list. intros Hl. cbn [NormalizeSlicesNumbersIndexes].
    f_equal. rewrite <-(list_fmap_id l) at 2. apply Forall_fmap_ext.
    rewrite Forall_forall in IH |- *. intros x Hx. apply IH; auto.
  - rewrite clean_map. intros [Hnum Hm].
    rewrite Normalize_object.
    + f_equal. apply map_eq. intros k. rewrite lookup_fmap.
      destruct (m !! k) as [x|] eqn:Hx; [|done]. cbn.
      f_equal. apply (IH k x Hx), (Hm k x Hx).
    + intros Hn%all_numeric_spec. congruence.
Qed.

(** If the all-numeric Objects met by the normalizer hold clean values, its
    result has no all-numeric Object left. *)
Lemma Normalize_settles (v : value) :
  settles v = true → clean (NormalizeSlicesNumbersIndexes v) = true.
Proof.
  induction v as [s|l|l IH|m IH|f] using value_tree_ind; try done.
  - cbn [settles NormalizeSlicesNumbersIndexes]. rewrite forallb_elem_of.
    intros Hl. apply clean_list. intros y. rewrite list_elem_of_fmap.
    intros (x & -> & Hx). rewrite Forall_forall in IH. apply IH; auto.
  - cbn [settles]. destruct (all_numeric m) eqn:Hnum.
    + rewrite (map_fold_andb (λ _ x, clean x)). intros Hm.
      rewrite Normalize_numeric by by apply all_numeric_spec.
      apply clean_list. intros y. rewrite list_elem_of_fmap.
      intros (k & -> & Hk). apply sorted_keys_spec in Hk as [x Hx].
      unfold index_any. rewrite Hx. by apply (Hm k x).
    + rewrite (map_fold_andb (λ _ x, settles x)). intros Hm.
      rewrite Normalize_object
        by (intros Hn%all_numeric_spec; congruence).
      apply clean_map. rewrite all_numeric_fmap. split; [done|].
      intros k y. rewrite lookup_fmap_Some. intros (x & <- & Hx).
      apply (IH k x Hx), (Hm k x Hx).
Qed.

End normalizer_fixpoints.

Section pipeline_keeps.
Lemma concat_perm {A} (l1 l2 : list (list A)) :
  l1 ≡ₚ l2 → concat l1 ≡ₚ concat l2.
Proof.
  induction 1 as [|x l1 l2 _ IH|x y l|l1 l2 l3 _ IH1 _ IH2]; cbn.
  - done.
  - by rewrite IH.
  - apply Permutation_app_swap_app.
  - by rewrite IH1.
Qed.

Lemma index_values_keys (urlQuery : gmap string (list string)) :
  index_values urlQuery <$> maps_Keys urlQuery = (map_to_list urlQuery).*2.
Proof.
  unfold maps_Keys. rewrite <-list_fmap_compose.
  apply list_fmap_ext. intros i [k x] Hkx. cbn.
  apply list_elem_of_lookup_2, elem_of_map_to_list in Hkx.
  unfold index_values. by rewrite Hkx.
Qed.

Lemma ingest_leaves_shape (urlQuery : gmap string (list string))
    (keys : list string) (data r : QueryMap) :
  well_shaped (VMap data) = true →
  ingest urlQuery data keys = Ok r →
  leaves (VMap r)
  ≡ₚ leaves (VMap data) ++ concat (index_values urlQuery <$> keys)
  ∧ well_shaped (VMap r) = true.
Proof.
  revert data. induction keys as [|key keys IH]; intros data Hdata.
  - intros [= <-]. split; [|done]. cbn. by rewrite app_nil_r.
  - cbn [ingest].
    destruct (nestedQuery data key (index_values urlQuery key))
      as [data'| |] eqn:Hkey; cbn [mbind outcome_bind]; try done.
    destruct (nestedQuery_leaves_shape _ _ _ _ Hdata Hkey) as [Hl Hs].
    intros Hrest. destruct (IH data' Hs Hrest) as [Hl' Hs'].
    split; [|done]. rewrite Hl', Hl, fmap_cons. cbn [concat].
    by rewrite <-app_assoc.
Qed.

(** The pipeline loses no raw value and invents none; its tree is built
    from the four shapes only. *)
Lemma FromValues_leaves_shape (urlQuery : gmap string (list string))
    (r : QueryMap) :
  FromValues urlQuery = Ok r →
  leaves (VMap r) ≡ₚ concat (map_to_list urlQuery).*2
  ∧ well_shaped (VMap r) = true.
Proof.
  unfold FromValues, FromValues_ranging.
  destruct (ingest urlQuery newQueryMap (slices_Sort (maps_Keys urlQuery)))
    as [data| |] eqn:Hingest; cbn [mbind outcome_bind]; try done.
  intros [= <-].
  destruct (ingest_leaves_shape urlQuery
              (slices_Sort (maps_Keys urlQuery)) newQueryMap data)
    as [Hl Hs]; [reflexivity|done|].
  split.
  - rewrite leaves_fmap by (intros k x _; apply Normalize_leaves).
    rewrite Hl. cbn [app].
    change (leaves (VMap newQueryMap)) with (@nil string). cbn [app].
    apply concat_perm. rewrite <-index_values_keys.
    by rewrite slices_Sort_perm.
  - apply well_shaped_fmap; [|done]. intros k x _. apply Normalize_shape.
Qed.
End pipeline_keeps.

Section pipeline_panics.
Lemma ingest_panics (urlQuery : gmap string (list string))
    (keys : list string) (data : QueryMap) :
  ingest urlQuery data keys = Panicked
  ↔ ∃ key, key ∈ keys ∧ nestedQuery newQueryMap key [] = Panicked.
Proof.
  revert data. induction keys as [|key keys IH]; intros data.
  - split; [done|]. intros (key & Hkey & _). by apply elem_of_nil in Hkey.
  - cbn [ingest].
    destruct (nestedQuery data key (index_values urlQuery key))
      as [data'| |] eqn:Hkey; cbn [mbind outcome_bind].
    + rewrite IH. split.
      * intros (k & Hk & Hp). exists k. split; [by right|done].
      * intros (k & Hk & Hp). apply elem_of_cons in Hk as [->|Hk]; [|eauto].
        rewrite (nestedQuery_panic_transfer _ _ data _
                   (index_values urlQuery key) Hp) in Hkey. done.
    + split; [|done]. intros _. exists key. split; [by left|].
      by apply (nestedQuery_panic_transfer _ _ _ _ _ Hkey).
    + by apply nestedQuery_terminates in Hkey.
Qed.

(** The pipeline panics exactly when one of its raw keys, parsed on its
    own, panics. *)
Lemma FromValues_panics (urlQuery : gmap string (list string)) :
  FromValues urlQuery = Panicked
  ↔ ∃ key, is_Some (urlQuery !! key)
           ∧ nestedQuery newQueryMap key [] = Panicked.
Proof.
  unfold FromValues, FromValues_ranging.
  pose proof (ingest_panics urlQuery (slices_Sort (maps_Keys urlQuery))
                newQueryMap) as Hiff.
  destruct (ingest _ _ _) as [data| |]; cbn [mbind outcome_bind].
  - split; [done|]. intros (key & Hkey & Hp).
    assert (Ok data = Panicked) as Habs; [|done].
    apply Hiff. exists key. split; [|done]. by apply sorted_keys_spec.
  - split; [|done]. intros _. destruct (proj1 Hiff eq_refl) as (key & Hkey & Hp).
    exists key. split; [|done]. by apply (sorted_keys_spec urlQuery).
  - split; [done|]. intros (key & Hkey & Hp).
    assert (@OutOfFuel QueryMap = Panicked) as Habs; [|done].
    apply Hiff. exists key. split; [|done]. by apply sorted_keys_spec.
Qed.

End pipeline_panics.

Section bracket_free.
Lemma ingest_bracket_free (urlQuery : gmap string (list string))
    (ks : list string) (data : QueryMap) :
  NoDup ks →
  (∀ k, k ∈ ks → no_bracket k ∧ data !! k = None) →
  ∃ r : QueryMap,
    ingest urlQuery data ks = Ok r
    ∧ ∀ j, r !! j = if decide (j ∈ ks)
                    then Some (leaf_value (index_values urlQuery j))
                    else data !! j.
Proof.
  revert data. induction ks as [|k ks IH]; intros data Hnd Hks.
  - exists data. split; [done|]. intros j.
    destruct (decide (j ∈ [])) as [Hin|_]; [by inversion Hin|done].
  - apply NoDup_cons in Hnd as [Hk Hnd].
    destruct (Hks k) as (Hplain & Hfree); [by left|].
    cbn [ingest]. rewrite (nestedQuery_plain _ _ _ Hplain).
    cbn [mbind outcome_bind]. rewrite set_unfold_lookup, Hfree.
    destruct (IH (<[k:=leaf_value (index_values urlQuery k)]> data))
      as (r & Hr & Hlook); [done| |].
    { intros k' Hk'. destruct (Hks k') as (? & ?); [by right|].
      split; [done|]. rewrite lookup_insert_ne; [done|]. intros ->. done. }
    exists r. split; [done|]. intros j. rewrite Hlook.
    destruct (decide (j = k)) as [->|Hne].
    + rewrite decide_False by done. rewrite decide_True by left.
      by rewrite lookup_insert_eq.
    + rewrite lookup_insert_ne by done.
      destruct (decide (j ∈ ks)) as [Hin|Hnin].
      * by rewrite decide_True by (by right).
      * rewrite decide_False; [done|]. intros Hin.
        apply elem_of_cons in Hin as [?|?]; done.
Qed.

Lemma Normalize_leaf_value (vs : list string) :
  NormalizeSlicesNumbersIndexes (leaf_value vs) = leaf_value vs.
Proof. by destruct vs as [|v [|w vs]]. Qed.

End bracket_free.

(** ** Integer literals and [strconv.Atoi] *)

Section literals.
Local Open Scope Z_scope.

Lemma parse_digits_decimal (s : string) (acc : Z) :
  is_Some (parse_digits acc s) ↔ decimal_digits s = true.
Proof.
  revert acc. induction s as [|c s IH]; intros acc; simpl.
  - split; [done|by eexists].
  - destruct (Ascii.is_nat c); [apply IH|].
    split; [by intros [? ?]|done].
Qed.

(** [strconv.Atoi] accepts the integer literals that fit a 64-bit [int],
    and nothing else. *)
Lemma Atoi_accepts (k : string) :
  is_Some (Atoi k)
  ↔ integer_literal k = true ∧ - 2 ^ 63 ≤ literal_value k < 2 ^ 63.
Proof.
  assert (∀ (neg : bool) (d : string),
    is_Some (match d with
             | EmptyString => None
             | _ => match parse_digits 0 d with
                    | Some n =>
                      let n := if neg then - n else n in
                      if (- 2 ^ 63 <=? n) && (n <? 2 ^ 63) then Some n else None
                    | None => None
                    end
             end)
    ↔ match d with EmptyString => false | _ => decimal_digits d end = true
      ∧ - 2 ^ 63 ≤ (if neg then - default 0 (parse_digits 0 d)
                    else default 0 (parse_digits 0 d)) < 2 ^ 63) as Hcore.
  { intros neg d. destruct d as [|c d].
    { split; [by intros [? ?]|by intros [? _]]. }
    rewrite <-(parse_digits_decimal (String c d) 0).
    destruct (parse_digits 0 (String c d)) as [n|]; simpl.
    - destruct (Z.leb_spec (- 2 ^ 63) (if neg then - n else n)),
               (Z.ltb_spec (if neg then - n else n) (2 ^ 63)); simpl;
        (split; [intros [? ?]|intros [_ ?]]); try done; try lia;
        (split; [by eexists|lia]).
    - split; [by intros [? ?]|by intros [[? ?] _]]. }
  unfold Atoi, integer_literal, literal_value.
  destruct k as [|c k]; [apply (Hcore false "")|].
  destruct c as [[] [] [] [] [] [] [] []];
    first [apply (Hcore true k) | apply (Hcore false k)
          | apply (Hcore false (String _ k))].
Qed.

Lemma numeric_keys_literal (m : QueryMap) : numeric_keys m → literal_keys m.
Proof. intros H k Hk. by apply Atoi_accepts, H. Qed.
End literals.

(** ** The values of a query *)

Section url_query.
Lemma Query_snoc (pairs : list (string * string)) (key value : string) :
  Query (pairs ++ [(key, value)])
  = <[key := index_values (Query pairs) key ++ [value]]> (Query pairs).
Proof. unfold Query. by rewrite foldl_app. Qed.

Lemma values_insert_snoc (m : gmap string (list string)) (key value : string) :
  concat (map_to_list (<[key := index_values m key ++ [value]]> m)).*2
  ≡ₚ concat (map_to_list m).*2 ++ [value].
Proof.
  unfold index_values. destruct (m !! key) as [l|] eqn:Hk; simpl.
  - rewrite <-(insert_delete_id m key l) at 2 by done.
    rewrite <-(insert_delete_eq m).
    rewrite !map_to_list_insert by apply lookup_delete_eq.
    rewrite !fmap_cons; simpl.
    rewrite <-!(assoc_L (++)). apply Permutation_app_head.
    apply Permutation_app_comm.
  - rewrite map_to_list_insert by done. rewrite fmap_cons; simpl.
    apply Permutation_cons_append.
Qed.

Lemma Query_values (pairs : list (string * string)) :
  concat (map_to_list (Query pairs)).*2 ≡ₚ pairs.*2.
Proof.
  induction pairs as [|[key value] pairs IH] using rev_ind.
  - unfold Query; simpl. by rewrite map_to_list_empty.
  - rewrite Query_snoc, values_insert_snoc, IH, fmap_app. done.
Qed.
End url_query.

(** * Results *)

(** C1. Merge engine: on an absent key [set] stores the incoming value as it
    is; on a present key the value after [set] is the one the merge lattice
    gives for (existing, incoming) — string+string a two-element []string,
    list-like shapes concatenated existing first and promoted to anyList when
    an anyList or an Object takes part, Object+Object merged key by key with
    the same engine, any other pair with an Object keeping the Object as one
    item of an anyList.  [set] is a total function: no pair of shapes is
    left undefined. *)
Theorem set_follows_merge_lattice (q : QueryMap) (key : string) (v : value) :
  set q key v =
  match q !! key with
  | None => <[key := v]> q
  | Some e => <[key := merge_lattice e v]> q
  end.
Proof. apply set_is_set_spec. Qed.

(** C2 (the code departs from it). The all-numeric branch returns the values
    of the Object as they are, without normalizing them as the other two
    branches do, so a second pass still finds work: on
    [{"0": {"0": "a"}}] one pass gives [[{"0": "a"}]] and two passes give
    [[["a"]]]. *)
Theorem Normalize_twice_differs :
  let tree := VMap {[ "0" := VMap {[ "0" := VString "a" ]} ]} in
  NormalizeSlicesNumbersIndexes tree
  = VAnyList [VMap {[ "0" := VString "a" ]}]
  ∧ NormalizeSlicesNumbersIndexes (NormalizeSlicesNumbersIndexes tree)
    = VAnyList [VAnyList [VString "a"]]
  ∧ NormalizeSlicesNumbersIndexes (NormalizeSlicesNumbersIndexes tree)
    ≠ NormalizeSlicesNumbersIndexes tree.
Proof.
  repeat split; try (vm_compute; reflexivity).
  vm_compute. discriminate.
Qed.

(** C3 (as amended). An Object all of whose keys pass [strconv.Atoi] — the
    base-10 integer literals that fit a 64-bit [int] (lemma [Atoi_accepts])
    — is replaced by an anyList of its values, taken in ascending order of
    the keys compared as text, not as numbers: the value under "10" comes
    before the value under "2". *)
Theorem Normalize_numeric_keys_sorted_as_text :
  (∀ m : QueryMap, numeric_keys m →
     ∃ entries : list (string * value),
       NormalizeSlicesNumbersIndexes (VMap m) = VAnyList entries.*2
       ∧ StronglySorted str_lt entries.*1
       ∧ ∀ k v, (k, v) ∈ entries ↔ m !! k = Some v)
  ∧ (∀ a b : value,
       NormalizeSlicesNumbersIndexes (VMap {[ "10" := a; "2" := b ]})
       = VAnyList [a; b]).
Proof.
  split.
  - intros m Hnum.
    exists ((λ k, (k, index_any m k)) <$> slices_Sort (maps_Keys m)).
    destruct (sorted_keys_spec m) as [Hsorted Hmem].
    rewrite <-!list_fmap_compose. split; [by apply Normalize_numeric|].
    split.
    + replace (fst ∘ _) with (@id string) by done. by rewrite list_fmap_id.
    + intros k v. rewrite list_elem_of_fmap. unfold index_any. split.
      * intros (k' & [= -> ->] & Hk). apply Hmem in Hk as [x Hx].
        by rewrite Hx.
      * intros Hkv. exists k. rewrite Hkv. split; [done|].
        apply Hmem. eauto.
  - intros a b. vm_compute. reflexivity.
Qed.

Lemma Normalize_numeric_keys_sorted_as_text_witness :
  ∃ entries : list (string * value),
    NormalizeSlicesNumbersIndexes
      (VMap {[ "0" := VString "1"; "2" := VString "3"; "4" := VString "5" ]})
    = VAnyList entries.*2
    ∧ StronglySorted str_lt entries.*1
    ∧ ∀ k v, (k, v) ∈ entries
             ↔ ({[ "0" := VString "1"; "2" := VString "3"; "4" := VString "5" ]}
                  : QueryMap) !! k = Some v.
Proof.
  apply (proj1 Normalize_numeric_keys_sorted_as_text).
  intros k [x Hx].
  apply lookup_insert_Some in Hx as [[<- _]|[_ Hx]]; [by eexists|].
  apply lookup_insert_Some in Hx as [[<- _]|[_ Hx]]; [by eexists|].
  apply lookup_singleton_Some in Hx as [<- _]. by eexists.
Defined.

(** C3 as stated fails on a literal too large for [int]:
    ["9223372036854775808"] is 2^63 written in base 10, [strconv.Atoi]
    returns a range error for it, [keyAreNumbers] stays behind [total] and
    the Object is kept.  The query [a[9223372036854775808]=x] leads there. *)
Lemma Normalize_literal_beyond_int_counterexample :
  ¬ (∀ m : QueryMap, m ≠ ∅ → literal_keys m →
       ∃ entries : list (string * value),
         NormalizeSlicesNumbersIndexes (VMap m) = VAnyList entries.*2
         ∧ StronglySorted str_lt entries.*1
         ∧ ∀ k v, (k, v) ∈ entries ↔ m !! k = Some v)
  ∧ integer_literal "9223372036854775808" = true
  ∧ Atoi "9223372036854775808" = None
  ∧ NormalizeSlicesNumbersIndexes
      (VMap {[ "9223372036854775808" := VString "x" ]})
    = VMap {[ "9223372036854775808" := VString "x" ]}
  ∧ FromValues {[ "a[9223372036854775808]" := ["x"] ]}
    = Ok {[ "a" := VMap {[ "9223372036854775808" := VString "x" ]} ]}.
Proof.
  split; [|repeat split; vm_compute; reflexivity].
  intros Hclaim.
  destruct (Hclaim {[ "9223372036854775808" := VString "x" ]})
    as (entries & Heq & _).
  - apply insert_non_empty.
  - intros k [x Hx]. apply lookup_singleton_Some in Hx as [<- _]. reflexivity.
  - vm_compute in Heq. discriminate Heq.
Qed.

(** C4 (as amended). An Object with at least one key that is not a base-10
    integer literal stays an Object with the same keys, and each of its
    values is normalized.  The empty Object does not stay one: it comes back
    as an empty anyList. *)
Theorem Normalize_keeps_object :
  (∀ m : QueryMap,
     (∃ k, is_Some (m !! k) ∧ Atoi k = None) →
     ∃ m' : QueryMap,
       NormalizeSlicesNumbersIndexes (VMap m) = VMap m'
       ∧ dom m' = dom m
       ∧ ∀ k v, m !! k = Some v →
                m' !! k = Some (NormalizeSlicesNumbersIndexes v))
  ∧ NormalizeSlicesNumbersIndexes (VMap ∅) = VAnyList [].
Proof.
  split; [|reflexivity].
  intros m (k & Hk & Hatoi).
  exists (NormalizeSlicesNumbersIndexes <$> m). split; [|split].
  - apply Normalize_object. intros Hnum.
    destruct (Hnum k Hk) as [n Hn]. congruence.
  - apply dom_fmap_L.
  - intros j v Hj. by rewrite lookup_fmap, Hj.
Qed.

Lemma Normalize_keeps_object_witness :
  ∃ m' : QueryMap,
    NormalizeSlicesNumbersIndexes
      (VMap {[ "c" := VString "1"; "0" := VMap {[ "1" := VString "2" ]} ]})
    = VMap m'
    ∧ dom m' = dom ({[ "c" := VString "1";
                       "0" := VMap {[ "1" := VString "2" ]} ]} : QueryMap)
    ∧ ∀ k v,
        ({[ "c" := VString "1"; "0" := VMap {[ "1" := VString "2" ]} ]}
           : QueryMap) !! k = Some v →
        m' !! k = Some (NormalizeSlicesNumbersIndexes v).
Proof.
  apply (proj1 Normalize_keeps_object).
  exists "c". split; [by eexists|reflexivity].
Defined.

(** C4 as stated fails on the empty Object: [total] and [keyAreNumbers] are
    both 0, the test [total == keyAreNumbers] holds, and the result is an
    empty anyList. *)
Lemma Normalize_empty_object_counterexample :
  ¬ (∀ m : QueryMap,
       m = ∅ ∨ (∃ k, is_Some (m !! k) ∧ Atoi k = None) →
       ∃ m' : QueryMap,
         NormalizeSlicesNumbersIndexes (VMap m) = VMap m'
         ∧ dom m' = dom m
         ∧ ∀ k v, m !! k = Some v →
                  m' !! k = Some (NormalizeSlicesNumbersIndexes v))
  ∧ NormalizeSlicesNumbersIndexes (VMap ∅) = VAnyList [].
Proof.
  split; [|reflexivity].
  intros Hclaim. destruct (Hclaim ∅) as (m' & Heq & _); [by left|].
  vm_compute in Heq. discriminate Heq.
Qed.

(** C5. [FromValues] sorts the raw keys before it merges them, so the tree
    does not depend on the order in which the map hands out its keys: any
    enumeration of the keys gives the result of the ascending one.  The side
    that sorts first is the existing side of the merge: ["b"] sorts before
    ["b[]"], so [b[]=1&b=2] gives [{"b": ["2","1"]}] and [b=1&b[]=2] gives
    [{"b": ["1","2"]}]. *)
Theorem FromValues_sorted_ingestion :
  (∀ (urlQuery : gmap string (list string)) (urlQueryKeys : list string),
     urlQueryKeys ≡ₚ maps_Keys urlQuery →
     FromValues_ranging urlQueryKeys urlQuery = FromValues urlQuery
     ∧ ∃ ks, StronglySorted str_lt ks
             ∧ (∀ k, k ∈ ks ↔ is_Some (urlQuery !! k))
             ∧ FromValues urlQuery
               = (data ← ingest urlQuery newQueryMap ks;
                  Ok (NormalizeSlicesNumbersIndexes <$> (data : QueryMap))))
  ∧ str_lt "b" "b[]"
  ∧ FromValues {[ "b[]" := ["1"]; "b" := ["2"] ]}
    = Ok {[ "b" := VStrings ["2"; "1"] ]}
  ∧ FromValues {[ "b" := ["1"]; "b[]" := ["2"] ]}
    = Ok {[ "b" := VStrings ["1"; "2"] ]}.
Proof.
  split; [|split; [|split]]; [|vm_compute; reflexivity..].
  intros urlQuery urlQueryKeys Hperm. split.
  - unfold FromValues, FromValues_ranging.
    by rewrite (slices_Sort_unique _ _ Hperm).
  - exists (slices_Sort (maps_Keys urlQuery)).
    destruct (sorted_keys_spec urlQuery) as [Hsorted Hmem]. done.
Qed.

Lemma FromValues_sorted_ingestion_witness :
  FromValues_ranging ["b[]"; "b"] {[ "b[]" := ["1"]; "b" := ["2"] ]}
  = FromValues {[ "b[]" := ["1"]; "b" := ["2"] ]}
  ∧ FromValues_ranging ["b"; "b[]"] {[ "b[]" := ["1"]; "b" := ["2"] ]}
    = FromValues {[ "b[]" := ["1"]; "b" := ["2"] ]}.
Proof.
  split.
  - apply (proj1 FromValues_sorted_ingestion). vm_compute.
    first [reflexivity | apply perm_swap].
  - apply (proj1 FromValues_sorted_ingestion). vm_compute.
    first [reflexivity | apply perm_swap].
Defined.

(** C6. A key that ends in ["[]"] has its raw value list stored as the
    []string itself, whatever precedes the marker and also when there is a
    single raw value; for a key of the grammar the list sits at the path of
    the segments before the marker.  An empty bracket group that is followed
    by another group gets no list meaning: it is the key [""] at its level,
    so [names[][firstName]=John] gives
    [{"names": {"": {"firstName": "John"}}}]. *)
Theorem nestedQuery_append_marker :
  (∀ (data : QueryMap) (prefix : string) (value : list string),
     ∃ name path,
       nestedQuery data (prefix +:+ "[]") value
       = Ok (set data name (nest_under path (VStrings value))))
  ∧ (∀ (data : QueryMap) (name : string) (segs value : list string),
       no_bracket name → Forall no_bracket segs →
       nestedQuery data (bracket_key name (segs ++ [""])) value
       = Ok (set data name (nest_under segs (VStrings value))))
  ∧ (∀ (data : QueryMap) (name : string) (before after value : list string),
       no_bracket name → Forall no_bracket before → Forall no_bracket after →
       after ≠ [] →
       nestedQuery data (bracket_key name (before ++ "" :: after)) value
       = Ok (set data name
               (nest_under before (VMap {[ "" := build_under after value ]}))))
  ∧ FromValues {[ "names[][firstName]" := ["John"] ]}
    = Ok {[ "names" :=
              VMap {[ "" := VMap {[ "firstName" := VString "John" ]} ]} ]}.
Proof.
  split; [|split; [|split]].
  - intros data prefix value. apply nestedQuery_append_any.
  - intros data name segs value Hname Hsegs.
    rewrite nestedQuery_grammar, build_under_marker; [done..|].
    apply Forall_app. split; [done|]. by repeat constructor.
  - intros data name before after value Hname Hbefore Hafter Hne.
    rewrite nestedQuery_grammar, build_under_middle; [done..|].
    apply Forall_app. split; [done|]. by repeat constructor.
  - vm_compute. reflexivity.
Qed.

Lemma nestedQuery_append_marker_witness :
  nestedQuery newQueryMap (bracket_key "b" (["0"] ++ [""])) ["1"; "2"]
  = Ok (set newQueryMap "b" (nest_under ["0"] (VStrings ["1"; "2"])))
  ∧ nestedQuery newQueryMap
      (bracket_key "names" ([] ++ "" :: ["firstName"])) ["John"]
    = Ok (set newQueryMap "names"
            (nest_under [] (VMap {[ "" := build_under ["firstName"] ["John"] ]}))).
Proof.
  split.
  - apply (proj1 (proj2 nestedQuery_append_marker)).
    + split; reflexivity.
    + repeat constructor.
  - apply (proj1 (proj2 (proj2 nestedQuery_append_marker))).
    + split; reflexivity.
    + constructor.
    + repeat constructor.
    + discriminate.
Defined.

(** C7. Once no opening bracket is left in the key, the value is stored
    under the remaining name (without the closing bracket that ends it): as a
    string when there is exactly one raw value, as the []string itself
    otherwise.  The one key without ["["] that does not get here is ["]"]
    alone, which the append-marker test catches.  For a key of the grammar
    whose last segment is not empty, that leaf sits at the path of the
    segments.  Hence a query without brackets and without repeated keys gives
    an Object with the raw keys as keys and the single strings as values. *)
Theorem nestedQuery_leaf_shapes :
  (∀ (data : QueryMap) (key : string) (value : list string),
     IndexRune key "[" = (-1)%Z → key ≠ "]" →
     nestedQuery data key value
     = Ok (set data (leaf_name key)
             match value with
             | [v] => VString v
             | _ => VStrings value
             end))
  ∧ (∀ (data : QueryMap) (name : string) (segs value : list string),
       no_bracket name → Forall no_bracket segs → last segs ≠ Some "" →
       nestedQuery data (bracket_key name segs) value
       = Ok (set data name
               (nest_under segs
                  match value with
                  | [v] => VString v
                  | _ => VStrings value
                  end)))
  ∧ (∀ scalars : gmap string string,
       (∀ k, is_Some (scalars !! k) → no_bracket k) →
       FromValues ((λ v, [v]) <$> scalars) = Ok (VString <$> scalars)).
Proof.
  split; [|split].
  - intros data key value. apply nestedQuery_leaf.
  - intros data name segs value Hname Hsegs Hlast.
    rewrite nestedQuery_grammar, build_under_leaf; done.
  - apply FromValues_plain.
Qed.

Lemma nestedQuery_leaf_shapes_witness :
  nestedQuery newQueryMap "c]" ["1"]
  = Ok (set newQueryMap (leaf_name "c]") (VString "1"))
  ∧ nestedQuery newQueryMap (bracket_key "a" ["b"; "c"]) ["1"; "2"]
    = Ok (set newQueryMap "a" (nest_under ["b"; "c"] (VStrings ["1"; "2"])))
  ∧ FromValues ((λ v, [v]) <$> {[ "b" := "1"; "c" := "2" ]})
    = Ok (VString <$> {[ "b" := "1"; "c" := "2" ]}).
Proof.
  split; [|split].
  - apply (proj1 nestedQuery_leaf_shapes newQueryMap "c]" ["1"]);
      [reflexivity|discriminate].
  - apply (proj1 (proj2 nestedQuery_leaf_shapes)
             newQueryMap "a" ["b"; "c"] ["1"; "2"]).
    + split; reflexivity.
    + repeat constructor.
    + discriminate.
  - apply (proj2 (proj2 nestedQuery_leaf_shapes)).
    intros k [x Hx].
    apply lookup_insert_Some in Hx as [[<- _]|[_ Hx]]; [by split|].
    apply lookup_singleton_Some in Hx as [<- _]. by split.
Defined.

(** C8 (the code departs from it). The recursion does end — the counter of
    the embedding never runs out — but the pipeline can fail: the raw key
    ["["] (query [?[=1]) makes [nestedQuery] slice [key[:-1]], which
    panics. *)
Theorem FromValues_panics_on_open_bracket :
  (∀ (data : QueryMap) (key : string) (value : list string),
     nestedQuery data key value ≠ OutOfFuel)
  ∧ (∀ urlQuery : gmap string (list string),
       FromValues urlQuery ≠ OutOfFuel)
  ∧ FromValues {[ "[" := ["1"] ]} = Panicked.
Proof.
  split; [|split].
  - apply nestedQuery_terminates.
  - apply FromValues_terminates.
  - vm_compute. reflexivity.
Qed.

(** C9 (the code departs from it). An unclosed bracket further in the key is
    tolerated: ["a[b"] is kept as the name and ["b"] is parsed below it.  An
    unclosed bracket at the very start is not: ["[b"] panics. *)
Theorem nestedQuery_unclosed_bracket :
  nestedQuery newQueryMap "a[b" ["1"]
  = Ok {[ "a[b" := VMap {[ "b" := VString "1" ]} ]}
  ∧ nestedQuery newQueryMap "[b" ["1"] = Panicked
  ∧ FromValues {[ "[b" := ["1"] ]} = Panicked.
Proof. repeat split; vm_compute; reflexivity. Qed.


(** C10. A value that is none of the four tree shapes, [nil] included, is
    returned as it is. *)
Theorem Normalize_foreign_unchanged (v : value) :
  is_tree_shape v = false → NormalizeSlicesNumbersIndexes v = v.
Proof. destruct v; simpl; intros H; [discriminate..|reflexivity]. Qed.

Lemma Normalize_foreign_unchanged_witness :
  NormalizeSlicesNumbersIndexes (VForeign GoNil) = VForeign GoNil.
Proof. apply Normalize_foreign_unchanged. reflexivity. Defined.

(** * Further results *)

(** X1. [set] adds its key and no other, and takes none away: the keys of
    the map afterwards are the keys it had and the key given. *)
Theorem set_adds_only_its_key (q : QueryMap) (key : string) (v : value) :
  dom (set q key v) = {[ key ]} ∪ dom q.
Proof.
  rewrite set_is_set_spec. unfold set_spec.
  destruct (q !! key); apply dom_insert_L.
Qed.

(** X3. [set] keeps the four shapes: from a map and a value that hold
    nothing else it makes a map that holds nothing else. *)
Theorem set_keeps_shapes (q : QueryMap) (key : string) (v : value) :
  well_shaped (VMap q) = true → well_shaped v = true →
  well_shaped (VMap (set q key v)) = true.
Proof. intros Hq Hv. by apply set_leaves_shape. Qed.

Lemma set_keeps_shapes_witness :
  well_shaped (VMap (set {[ "a" := VAnyList [VString "1"] ]} "a"
                         (VMap {[ "b" := VString "2" ]}))) = true.
Proof. apply set_keeps_shapes; reflexivity. Defined.

(** X4. Strings set one after the other under a key that was absent end up
    as one []string, in the order of the calls. *)
Theorem set_strings_accumulate (q : QueryMap) (key : string)
    (v1 v2 : string) (vs : list string) :
  q !! key = None →
  foldl (λ q v, set q key (VString v)) q (v1 :: v2 :: vs)
  = <[key := VStrings (v1 :: v2 :: vs)]> q.
Proof.
  intros Hq. cbn [foldl].
  rewrite (set_is_set_spec q). unfold set_spec at 1. rewrite Hq.
  rewrite (set_is_set_spec (<[key:=_]> q)). unfold set_spec at 1.
  rewrite lookup_insert_eq, insert_insert_eq. cbn [merge_lattice].
  by rewrite set_strings_onto_list.
Qed.

Lemma set_strings_accumulate_witness :
  foldl (λ q v, set q "b" (VString v)) newQueryMap ("1" :: "2" :: ["3"])
  = <["b" := VStrings ("1" :: "2" :: ["3"])]> newQueryMap.
Proof. apply set_strings_accumulate. reflexivity. Defined.

(** X5. The Object+Object loop of [set] ranges over a Go map, whose order is
    not fixed: in whatever order the incoming pairs are visited, the merged
    Object is the same key-wise merge. *)
Theorem set_object_merge_any_order (pairs : list (string * value))
    (entry value : QueryMap) :
  pairs ≡ₚ map_to_list value →
  foldl (λ entry kx, set entry kx.1 kx.2) entry pairs
  = union_with (λ a b, Some (merge_lattice a b)) entry value.
Proof. apply deep_merge_any_order. Qed.

Lemma set_object_merge_any_order_witness :
  foldl (λ entry kx, set entry kx.1 kx.2) {[ "a" := VString "1" ]}
        [("b", VString "3"); ("a", VString "2")]
  = union_with (λ a b, Some (merge_lattice a b))
      {[ "a" := VString "1" ]} {[ "a" := VString "2"; "b" := VString "3" ]}
  ∧ foldl (λ entry kx, set entry kx.1 kx.2) {[ "a" := VString "1" ]}
          [("a", VString "2"); ("b", VString "3")]
    = union_with (λ a b, Some (merge_lattice a b))
        {[ "a" := VString "1" ]} {[ "a" := VString "2"; "b" := VString "3" ]}.
Proof.
  split; apply set_object_merge_any_order; vm_compute;
    first [reflexivity | apply perm_swap].
Defined.


(** X7. Whatever the key, well-formed or not, a call that returns builds one
    chain from the empty tree: one name, single-key Objects below it, and at
    the end the raw values, either as the []string or as the leaf of lines
    129-132. *)
Theorem nestedQuery_builds_one_chain (key : string) (value : list string)
    (fresh : QueryMap) :
  nestedQuery newQueryMap key value = Ok fresh →
  ∃ name path leaf,
    fresh = {[ name := nest_under path leaf ]}
    ∧ (leaf = VStrings value ∨ leaf = leaf_value value).
Proof. apply nestedQuery_chain. Qed.

Lemma nestedQuery_builds_one_chain_witness :
  ∃ name path leaf,
    ({[ "a]b[]" := VStrings ["1"] ]} : QueryMap)
    = {[ name := nest_under path leaf ]}
    ∧ (leaf = VStrings ["1"] ∨ leaf = leaf_value ["1"]).
Proof.
  apply (nestedQuery_builds_one_chain "a]b[]" ["1"]). vm_compute. reflexivity.
Defined.

(** X8. Whether a call panics depends on the key alone, not on the tree it
    works on nor on the raw values. *)
Theorem nestedQuery_panic_by_key_alone (key : string) (data data' : QueryMap)
    (value value' : list string) :
  nestedQuery data key value = Panicked →
  nestedQuery data' key value' = Panicked.
Proof. apply nestedQuery_panic_transfer. Qed.

Lemma nestedQuery_panic_by_key_alone_witness :
  nestedQuery {[ "a" := VString "1" ]} "x[[" ["2"; "3"] = Panicked.
Proof.
  apply (nestedQuery_panic_by_key_alone "x[[" newQueryMap _ []).
  vm_compute. reflexivity.
Defined.

(** X9. An opening bracket that is never closed, after a non-empty name: the
    whole key, bracket included, becomes the name, and the text after the
    bracket is one more level below it. *)
Theorem nestedQuery_unclosed_inner_bracket (data : QueryMap)
    (name rest : string) (value : list string) :
  name ≠ "" → no_bracket name → no_bracket rest →
  nestedQuery data (name +:+ "[" +:+ rest) value
  = Ok (set data (name +:+ "[" +:+ rest)
          (VMap {[ rest := leaf_value value ]})).
Proof.
  intros Hne [Hs He] [Hs' He'].
  change (name +:+ "[" +:+ rest) with (name +:+ String "[" rest).
  assert (IndexRune (name +:+ String "[" rest) "[" = len name) as Hopen
    by by apply IndexRune_app_hit.
  assert (IndexRune (name +:+ String "[" rest) "]" = (-1)%Z) as Hclose.
  { rewrite (IndexRune_absent_app _ _ _ He).
    rewrite IndexRune_cons_ne, He' by done. done. }
  assert (1 ≤ len name)%Z as Hlen.
  { destruct name; [done|]. rewrite len_cons. pose proof (len_nonneg name). lia. }
  rewrite nestedQuery_unclosed by (rewrite ?Hopen; done).
  rewrite Hopen.
  replace (Z.to_nat (len name + 1)) with (String.length name + 1)%nat
    by (unfold len; lia).
  rewrite str_drop_app_r. cbn [str_drop].
  rewrite nestedQuery_plain by done. cbn [mbind outcome_bind].
  by rewrite set_empty.
Qed.

Lemma nestedQuery_unclosed_inner_bracket_witness :
  nestedQuery newQueryMap ("a" +:+ "[" +:+ "b") ["1"]
  = Ok (set newQueryMap ("a" +:+ "[" +:+ "b")
          (VMap {[ "b" := leaf_value ["1"] ]})).
Proof.
  apply nestedQuery_unclosed_inner_bracket;
    [discriminate|split; reflexivity..].
Defined.

(** X10. The pipeline panics exactly when one of its raw keys, parsed on its
    own into an empty tree, panics; the raw values and the other keys play no
    part. *)
Theorem FromValues_panics_iff_a_key_panics
    (urlQuery : gmap string (list string)) :
  FromValues urlQuery = Panicked
  ↔ ∃ key, is_Some (urlQuery !! key)
           ∧ nestedQuery newQueryMap key [] = Panicked.
Proof. apply FromValues_panics. Qed.

Lemma FromValues_panics_iff_a_key_panics_witness :
  FromValues {[ "a" := ["1"]; "x[[" := ["2"] ]} = Panicked.
Proof.
  apply FromValues_panics_iff_a_key_panics.
  exists "x[[". split; [by eexists|]. vm_compute. reflexivity.
Defined.

(** X11. One raw key that starts with ["["] and has no ["]"] is enough to
    make the pipeline panic, whatever else the query holds. *)
Theorem FromValues_panics_on_leading_open_bracket
    (urlQuery : gmap string (list string)) (key : string) :
  is_Some (urlQuery !! key) →
  IndexRune key "[" = 0%Z → IndexRune key "]" = (-1)%Z →
  FromValues urlQuery = Panicked.
Proof.
  intros Hkey Hs He. apply FromValues_panics. exists key. split; [done|].
  by apply nestedQuery_panics.
Qed.

Lemma FromValues_panics_on_leading_open_bracket_witness :
  FromValues {[ "a" := ["1"]; "[b" := ["2"]; "c[d]" := ["3"] ]} = Panicked.
Proof.
  apply (FromValues_panics_on_leading_open_bracket _ "[b");
    [by eexists|reflexivity..].
Defined.

(** X12. When in every raw key each opening bracket has a closing bracket
    somewhere after it, the pipeline returns a tree. *)
Theorem FromValues_returns_on_closed_brackets
    (urlQuery : gmap string (list string)) :
  (∀ key, is_Some (urlQuery !! key) → brackets_closed key = true) →
  ∃ r, FromValues urlQuery = Ok r.
Proof.
  intros Hclosed.
  destruct (FromValues urlQuery) as [r| |] eqn:Hr; [eauto| |].
  - apply FromValues_panics in Hr as (key & Hkey & Hp).
    destruct (nestedQuery_closed_ok key newQueryMap [] (Hclosed key Hkey))
      as [r Hr]. congruence.
  - by apply FromValues_terminates in Hr.
Qed.

Lemma FromValues_returns_on_closed_brackets_witness :
  ∃ r, FromValues {[ "a]b[c]" := ["1"]; "x[[y]" := ["2"] ]} = Ok r.
Proof.
  apply FromValues_returns_on_closed_brackets.
  intros key [x Hx].
  apply lookup_insert_Some in Hx as [[<- _]|[_ Hx]]; [reflexivity|].
  apply lookup_singleton_Some in Hx as [<- _]. reflexivity.
Defined.

(** X13. [FromURL] loses no raw value and invents none: the strings at the
    leaves of the tree are the values of the query, each as often as the
    query gives it. *)
Theorem FromURL_keeps_raw_values (pairs : list (string * string))
    (r : QueryMap) :
  FromURL pairs = Ok r → leaves (VMap r) ≡ₚ pairs.*2.
Proof.
  intros Hr. rewrite <-Query_values.
  by apply (FromValues_leaves_shape (Query pairs)).
Qed.

Lemma FromURL_keeps_raw_values_witness :
  leaves (VMap {[ "b" := VAnyList [VStrings ["1"; "2"]; VStrings ["3"]] ]})
  ≡ₚ [("b[0][]", "1"); ("b[1][]", "3"); ("b[0][]", "2")].*2.
Proof. apply FromURL_keeps_raw_values. vm_compute. reflexivity. Defined.

(** X14. The tree of the pipeline is built from the four shapes only, at
    every depth. *)
Theorem FromValues_tree_has_four_shapes
    (urlQuery : gmap string (list string)) (r : QueryMap) :
  FromValues urlQuery = Ok r → well_shaped (VMap r) = true.
Proof. intros Hr. by apply (FromValues_leaves_shape urlQuery). Qed.

Lemma FromValues_tree_has_four_shapes_witness :
  well_shaped (VMap {[ "b" := VAnyList [VStrings ["1"; "2"]; VStrings ["3"]] ]})
  = true.
Proof.
  apply (FromValues_tree_has_four_shapes
           {[ "b[0][]" := ["1"; "2"]; "b[1][]" := ["3"] ]}).
  vm_compute. reflexivity.
Defined.

(** X15. On a tree without an Object whose keys are all numeric (the empty
    Object counts as one) the normalizer changes nothing. *)
Theorem Normalize_fixes_clean_trees (v : value) :
  clean v = true → NormalizeSlicesNumbersIndexes v = v.
Proof. apply Normalize_clean. Qed.

Lemma Normalize_fixes_clean_trees_witness :
  NormalizeSlicesNumbersIndexes
    (VMap {[ "a" := VAnyList [VMap {[ "b" := VString "1" ]}; VStrings ["2"]] ]})
  = VMap {[ "a" := VAnyList [VMap {[ "b" := VString "1" ]}; VStrings ["2"]] ]}.
Proof. apply Normalize_fixes_clean_trees. reflexivity. Defined.

(** X16. A second pass of the normalizer is a no-op whenever the all-numeric
    Objects the first pass meets hold values without all-numeric Objects. *)
Theorem Normalize_idempotent_when_settled (v : value) :
  settles v = true →
  NormalizeSlicesNumbersIndexes (NormalizeSlicesNumbersIndexes v)
  = NormalizeSlicesNumbersIndexes v.
Proof. intros Hv. by apply Normalize_clean, Normalize_settles. Qed.

Lemma Normalize_idempotent_when_settled_witness :
  NormalizeSlicesNumbersIndexes
    (NormalizeSlicesNumbersIndexes
       (VMap {[ "a" := VMap {[ "0" := VString "1"; "1" := VString "2" ]} ]}))
  = NormalizeSlicesNumbersIndexes
      (VMap {[ "a" := VMap {[ "0" := VString "1"; "1" := VString "2" ]} ]}).
Proof. apply Normalize_idempotent_when_settled. reflexivity. Defined.

(** X17. The normalizer never returns an Object all of whose keys are
    numeric; in particular it never returns the empty Object. *)
Theorem Normalize_never_numeric_object (v : value) (m' : QueryMap) :
  NormalizeSlicesNumbersIndexes v = VMap m' → ¬ numeric_keys m'.
Proof.
  destruct v as [s|l|l|m|f]; try done.
  destruct (all_numeric m) eqn:Hnum.
  - by rewrite Normalize_numeric by by apply all_numeric_spec.
  - rewrite Normalize_object by (intros Hn%all_numeric_spec; congruence).
    intros [= <-] Hn%all_numeric_spec.
    rewrite all_numeric_fmap in Hn. congruence.
Qed.

Lemma Normalize_never_numeric_object_witness :
  ¬ numeric_keys {[ "a" := VAnyList [VString "1"] ]}.
Proof.
  apply (Normalize_never_numeric_object
           (VMap {[ "a" := VMap {[ "0" := VString "1" ]} ]})).
  vm_compute. reflexivity.
Defined.

(** X18. The normalizer moves values but keeps every leaf string. *)
Theorem Normalize_keeps_leaves (v : value) :
  leaves (NormalizeSlicesNumbersIndexes v) ≡ₚ leaves v.
Proof. apply Normalize_leaves. Qed.

(** X19. The normalizer keeps the four shapes. *)
Theorem Normalize_keeps_shapes (v : value) :
  well_shaped v = true → well_shaped (NormalizeSlicesNumbersIndexes v) = true.
Proof. apply Normalize_shape. Qed.

Lemma Normalize_keeps_shapes_witness :
  well_shaped
    (NormalizeSlicesNumbersIndexes
       (VMap {[ "10" := VString "x"; "2" := VMap {[ "a" := VStrings [] ]} ]}))
  = true.
Proof. apply Normalize_keeps_shapes. reflexivity. Defined.

(** X20. A query whose raw keys hold no bracket gives one entry per raw key:
    the single string when the key came once, the []string of its values, in
    their order, when it was repeated. *)
Theorem FromValues_without_brackets (urlQuery : gmap string (list string)) :
  (∀ k, is_Some (urlQuery !! k) → no_bracket k) →
  FromValues urlQuery
  = Ok ((λ vs, match vs with [v] => VString v | _ => VStrings vs end)
          <$> urlQuery).
Proof.
  intros Hplain.
  change (λ vs, match vs with [v] => VString v | _ => VStrings vs end)
    with leaf_value.
  unfold FromValues, FromValues_ranging.
  destruct (sorted_keys_spec urlQuery) as [_ Hmem].
  destruct (ingest_bracket_free urlQuery (slices_Sort (maps_Keys urlQuery))
              newQueryMap) as (r & Hr & Hlook).
  { rewrite slices_Sort_perm. apply maps_Keys_NoDup. }
  { intros k Hk. apply Hmem in Hk. split; [by apply Hplain|].
    apply lookup_empty. }
  rewrite Hr. cbn [mbind outcome_bind]. f_equal. apply map_eq. intros j.
  rewrite !lookup_fmap, Hlook. unfold index_values.
  destruct (decide _) as [Hin|Hnin].
  - apply Hmem in Hin as [vs ->]. cbn. by rewrite Normalize_leaf_value.
  - unfold newQueryMap. rewrite lookup_empty.
    destruct (urlQuery !! j) eqn:Hj; [|done].
    exfalso. apply Hnin, Hmem. eauto.
Qed.

Lemma FromValues_without_brackets_witness :
  FromValues {[ "b" := ["1"; "2"]; "c" := ["3"] ]}
  = Ok ((λ vs, match vs with [v] => VString v | _ => VStrings vs end)
          <$> {[ "b" := ["1"; "2"]; "c" := ["3"] ]}).
Proof.
  apply FromValues_without_brackets.
  intros k [x Hx].
  apply lookup_insert_Some in Hx as [[<- _]|[_ Hx]]; [by split|].
  apply lookup_singleton_Some in Hx as [<- _]. by split.
Defined.
